(** * html_dom_visualize: the tree transformation core

    A shallow embedding of [html_dom_visualize/visualizer.py]:
    [_filter_branches], [_mask_elements], the [traverse] closure of
    [_plot_dom_treemap], [_add_line_breaks] and [default_mask_fn],
    together with the properties of the specification that concern them.

    Strings are [string]s, one [ascii] per character, so that Python's
    [len] is [String.length]; this covers the texts whose code points
    are below 256. *)

From Stdlib Require Import List String Ascii Bool Arith NArith ZArith Lia.
From Stdlib Require Import DecimalString DecimalN.
Import ListNotations.
Local Open Scope string_scope.
Local Open Scope list_scope.

(** ** The tree model (bs4's [Tag], [NavigableString] and its subclasses) *)

(** An attribute value is a [str], or a list of [str] for the attributes
    bs4 treats as multi-valued ([class], [rel], ...). *)
Inductive attr_value : Type :=
| AStr (s : string)
| AList (l : list string).

(** [Tag.attrs] is a [dict]: keys are unique and keep insertion order. *)
Definition attrs_t : Type := list (string * attr_value).

(** The leaf classes of bs4: [NavigableString] and the
    [PreformattedString] family. None of them is a [Tag]. *)
Inductive text_kind : Type :=
| KString | KComment | KCData | KDoctype | KDeclaration | KProcessingInstruction.

Inductive PageElement (T : Type) : Type :=
| ETag (t : T)
| EText (k : text_kind) (s : string).
Arguments ETag {T} t.
Arguments EText {T} k s.

(** A [Tag] object. [oid] is the object's identity, what Python's
    [id(element)] returns; an in-place update of the object keeps it.
    [hidden] is set on the [BeautifulSoup] object only, the root the
    parser returns, whose name is ["[document]"]. *)
#[warnings="-register-all"]
Inductive Tag : Type :=
| mkTag (oid : N) (name : string) (attrs : attrs_t) (hidden : bool)
        (contents : list (PageElement Tag)).

Definition oid (t : Tag) : N := let (o, _, _, _, _) := t in o.
Definition name (t : Tag) : string := let (_, n, _, _, _) := t in n.
Definition attrs (t : Tag) : attrs_t := let (_, _, a, _, _) := t in a.
Definition hidden (t : Tag) : bool := let (_, _, _, h, _) := t in h.
Definition contents (t : Tag) : list (PageElement Tag) :=
  let (_, _, _, _, c) := t in c.

(** The [Tag] objects among a list of children, in order. *)
Fixpoint tags (cs : list (PageElement Tag)) : list Tag :=
  match cs with
  | [] => []
  | ETag t :: rest => t :: tags rest
  | EText _ _ :: rest => tags rest
  end.

(** [f] on a child that is a [Tag], nothing on a text leaf. *)
Definition on_tag {A : Type} (f : Tag -> list A) (c : PageElement Tag) : list A :=
  match c with
  | ETag t => f t
  | EText _ _ => []
  end.

(** Every [Tag] of the subtree rooted at [t], [t] first (document order). *)
Fixpoint elements (t : Tag) : list Tag :=
  match t with
  | mkTag _ _ _ _ cs => t :: flat_map (on_tag elements) cs
  end.

(** The [Tag]s strictly below [t]. *)
Definition descendants (t : Tag) : list Tag :=
  flat_map (on_tag elements) (contents t).

(** Every [Tag] of the subtree paired with the chain of its proper
    ancestors inside the subtree, outermost first. *)
Fixpoint ancestry (t : Tag) : list (list Tag * Tag) :=
  match t with
  | mkTag _ _ _ _ cs =>
      ([], t) :: map (fun p => (t :: fst p, snd p)) (flat_map (on_tag ancestry) cs)
  end.

(** ** Branch filter *)

(** What one run of [_filter_branches] leaves behind: the returned flag,
    the node as the in-place updates left it, and the nodes the function
    was invoked on, in call order. *)
Record filter_run : Type := mkRun {
  kept : bool;
  tree : Tag;
  visited : list Tag
}.

Section FilterLoop.
Variable rec : Tag -> filter_run.

(** The [for child in children] loop of [_filter_branches]; [rec] is the
    recursive call. A child that reports [False] is decomposed, that is
    dropped from its parent's contents. *)
Fixpoint filter_loop (children : list (PageElement Tag)) (should_keep : bool)
    : bool * list (PageElement Tag) * list Tag :=
  match children with
  | [] => (should_keep, [], [])
  | ETag child :: rest =>
      let r := rec child in
      if kept r then
        let '(sk, cs, v) := filter_loop rest true in
        (sk, ETag (tree r) :: cs, visited r ++ v)
      else
        let '(sk, cs, v) := filter_loop rest should_keep in
        (sk, cs, visited r ++ v)
  | EText k s :: rest =>
      let '(sk, cs, v) := filter_loop rest should_keep in
      (sk, EText k s :: cs, v)
  end.
End FilterLoop.

Fixpoint _filter_branches (branch_filter : option (Tag -> bool)) (node : Tag)
    : filter_run :=
  match branch_filter with
  | None => mkRun true node [node]
  | Some f =>
      if f node then mkRun true node [node]
      else
        match node with
        | mkTag o nm at_ hd children =>
            if (List.length children =? 0)%nat && negb (f node)
            then mkRun false node [node]
            else
              let '(should_keep, cs, v) :=
                filter_loop (_filter_branches branch_filter) children false in
              mkRun should_keep (mkTag o nm at_ hd cs) (node :: v)
        end
  end.

(** ** Subtree masker *)

(** [d[k] = v] on a [dict]: an existing key keeps its position. *)
Fixpoint dict_set (k : string) (v : attr_value) (d : attrs_t) : attrs_t :=
  match d with
  | [] => [(k, v)]
  | (k', v') :: rest =>
      if String.eqb k' k then (k, v) :: rest else (k', v') :: dict_set k v rest
  end.

(** [d.get(k)], [None] when the key is absent. *)
Fixpoint dict_get (k : string) (d : attrs_t) : option attr_value :=
  match d with
  | [] => None
  | (k', v') :: rest => if String.eqb k' k then Some v' else dict_get k rest
  end.

(** [k in d]. *)
Definition dict_mem (k : string) (d : attrs_t) : bool :=
  match dict_get k d with Some _ => true | None => false end.

(** [child.decompose()] for every child that is a [Tag]: the text leaves
    stay. *)
Fixpoint decompose_tags (children : list (PageElement Tag)) : list (PageElement Tag) :=
  match children with
  | [] => []
  | ETag _ :: rest => decompose_tags rest
  | EText k s :: rest => EText k s :: decompose_tags rest
  end.

(** The node as [_mask_elements] leaves it, and the nodes the function was
    invoked on, in call order. *)
Record mask_run : Type := mkMask {
  masked : Tag;
  mask_visited : list Tag
}.

Section MaskLoop.
Variable rec : Tag -> mask_run.

(** The second loop of [_mask_elements]: recurse into every [Tag] child. *)
Fixpoint mask_loop (children : list (PageElement Tag))
    : list (PageElement Tag) * list Tag :=
  match children with
  | [] => ([], [])
  | ETag child :: rest =>
      let r := rec child in
      let '(cs, v) := mask_loop rest in
      (ETag (masked r) :: cs, mask_visited r ++ v)
  | EText k s :: rest =>
      let '(cs, v) := mask_loop rest in
      (EText k s :: cs, v)
  end.
End MaskLoop.

Fixpoint _mask_elements (should_mask : Tag -> bool)
    (mask_fn : option (Tag -> string)) (node : Tag) : mask_run :=
  match node with
  | mkTag o nm at_ hd children =>
      let descend :=
        let '(cs, v) := mask_loop (_mask_elements should_mask mask_fn) children in
        mkMask (mkTag o nm at_ hd cs) (node :: v) in
      if should_mask node then
        match mask_fn with
        | Some f =>
            mkMask (mkTag o nm (dict_set "el-mask" (AStr (f node)) at_) hd
                          (decompose_tags children))
                   [node]
        | None => descend
        end
      else descend
  end.

(** ** Text wrapper *)

(** [c.isspace()] for the code points below 256: tab to carriage return,
    the four separators 28-31, space, NEL (133) and no-break space (160). *)
Definition isspace (c : ascii) : bool :=
  let n := nat_of_ascii c in
  (((9 <=? n) && (n <=? 13)) || ((28 <=? n) && (n <=? 32))
   || (n =? 133) || (n =? 160))%nat.

(** [text.split()]: the maximal runs of characters that are not
    whitespace. [word] is the run being read. *)
Fixpoint split_from (word : string) (text : string) : list string :=
  match text with
  | EmptyString =>
      match word with
      | EmptyString => []
      | _ => [word]
      end
  | String c rest =>
      if isspace c then
        match word with
        | EmptyString => split_from EmptyString rest
        | _ => word :: split_from EmptyString rest
        end
      else split_from (word ++ String c EmptyString)%string rest
  end.

Definition split (text : string) : list string := split_from EmptyString text.

Definition len (s : string) : Z := Z.of_nat (String.length s).

(** The three locals of [_add_line_breaks]. *)
Record wrap_state : Type := mkWrap {
  result : list string;
  current_line : list string;
  current_length : Z
}.

(** One iteration of [for word in text.split()]. *)
Definition wrap_step (char_limit : Z) (st : wrap_state) (word : string)
    : wrap_state :=
  if (current_length st + len word >? char_limit)%Z then
    mkWrap (result st ++ [(String.concat " " (current_line st) ++ "<br />")%string])
           [word]
           (len word)
  else
    mkWrap (result st)
           (current_line st ++ [word])
           (current_length st + len word + 1)%Z.

(** The list [result] when [_add_line_breaks] reaches its [return]. *)
Definition wrap_result (text : string) (char_limit : Z) : list string :=
  let st := fold_left (wrap_step char_limit) (split text) (mkWrap [] [] 0%Z) in
  match current_line st with
  | [] => result st
  | _ :: _ => result st ++ [String.concat " " (current_line st)]
  end.

Definition _add_line_breaks (text : string) (char_limit : Z) : string :=
  String.concat " " (wrap_result text char_limit).

(** The default of [char_limit]. *)
Definition default_char_limit : Z := 120%Z.

(** ** Flattener *)

(** The [defaultdict(list)] that [traverse] appends to, with its four keys. *)
Record tree_data : Type := mkData {
  ids : list string;
  labels : list string;
  parents : list string;
  hover_text : list string
}.

Definition empty_data : tree_data := mkData [] [] [] [].

(** The decimal numeral an f-string prints for a non-negative [int]. *)
Definition decimal (n : N) : string := NilZero.string_of_uint (N.to_uint n).

(** [f"{element.name}_{id(element)}"]. *)
Definition node_id (element : Tag) : string :=
  (name element ++ "_" ++ decimal (oid element))%string.

(** [_add_line_breaks] on a value met at run time: a list has no [split],
    the call raises. *)
Definition add_line_breaks_value (v : attr_value) : option string :=
  match v with
  | AStr text => Some (_add_line_breaks text default_char_limit)
  | AList _ => None
  end.

Section Flattener.
(** Python's [str] of a [dict] of attributes, a built-in. *)
Variable str_dict : attrs_t -> string.

(** The argument of [_add_line_breaks] in [traverse]. *)
Definition hover_source (element : Tag) : attr_value :=
  if dict_mem "el-mask" (attrs element) then
    match dict_get "el-mask" (attrs element) with
    | Some v => v
    | None => AStr (str_dict (attrs element))
    end
  else AStr (str_dict (attrs element)).

Section TraverseLoop.
Variable rec : Tag -> tree_data -> option tree_data.

(** [for child in element.children: if child.name: traverse(...)].
    A text leaf has no name, and an empty name is falsy too. *)
Fixpoint traverse_loop (children : list (PageElement Tag)) (td : tree_data)
    : option tree_data :=
  match children with
  | [] => Some td
  | ETag child :: rest =>
      if String.eqb (name child) EmptyString then traverse_loop rest td
      else
        match rec child td with
        | Some td' => traverse_loop rest td'
        | None => None
        end
  | EText _ _ :: rest => traverse_loop rest td
  end.
End TraverseLoop.

(** [traverse], threading [tree_data]; [None] is a raised exception. *)
Fixpoint traverse (element : Tag) (parent_id : string) (td : tree_data)
    : option tree_data :=
  match element with
  | mkTag _ _ _ _ children =>
      let nid := node_id element in
      match add_line_breaks_value (hover_source element) with
      | None => None
      | Some hover =>
          traverse_loop (fun child => traverse child nid) children
            (mkData (ids td ++ [nid])
                    (labels td ++ [name element])
                    (parents td ++ [parent_id])
                    (hover_text td ++ [hover]))
      end
  end.

(** [_plot_dom_treemap] up to the [tree_data] it hands to [go.Treemap]. *)
Definition _plot_dom_treemap (node : Tag) : option tree_data :=
  traverse node EmptyString empty_data.
End Flattener.

(** ** Serialisation: [str(node)] of a [Tag]

    bs4's [Tag.decode] with the formatter [str] uses (["minimal"]), for
    trees as [html.parser] builds them (no namespace prefix). *)

Definition dquote : string := String (ascii_of_nat 34) EmptyString.

(** [EntitySubstitution.substitute_xml]: the three characters the minimal
    formatter escapes. *)
Fixpoint substitute_xml (s : string) : string :=
  match s with
  | EmptyString => EmptyString
  | String c rest =>
      ((if Ascii.eqb c "&" then "&amp;"
        else if Ascii.eqb c "<" then "&lt;"
        else if Ascii.eqb c ">" then "&gt;"
        else String c EmptyString) ++ substitute_xml rest)%string
  end.

Fixpoint has_char (c : ascii) (s : string) : bool :=
  match s with
  | EmptyString => false
  | String c' rest => Ascii.eqb c' c || has_char c rest
  end.

(** [str.replace] of every double quote by [&quot;]. *)
Fixpoint replace_dquote (s : string) : string :=
  match s with
  | EmptyString => EmptyString
  | String c rest =>
      ((if Ascii.eqb c (ascii_of_nat 34) then "&quot;" else String c EmptyString)
       ++ replace_dquote rest)%string
  end.

(** [EntitySubstitution.quoted_attribute_value]. *)
Definition quoted_attribute_value (value : string) : string :=
  if has_char (ascii_of_nat 34) value then
    if has_char "'" value then
      (dquote ++ replace_dquote value ++ dquote)%string
    else ("'" ++ value ++ "'")%string
  else (dquote ++ value ++ dquote)%string.

(** [sorted(tag.attrs.items())], as [Formatter.attributes] orders them. *)
Fixpoint insert_attr (kv : string * attr_value) (l : attrs_t) : attrs_t :=
  match l with
  | [] => [kv]
  | kv' :: rest =>
      if String.leb (fst kv) (fst kv') then kv :: l
      else kv' :: insert_attr kv rest
  end.

Definition sorted_attrs (d : attrs_t) : attrs_t := fold_right insert_attr [] d.

(** One [key="value"] of an opening tag; a list value is joined by spaces. *)
Definition decode_attr (kv : string * attr_value) : string :=
  let val := match snd kv with
             | AStr s => s
             | AList l => String.concat " " l
             end in
  (fst kv ++ "=" ++ quoted_attribute_value (substitute_xml val))%string.

Definition attribute_string (d : attrs_t) : string :=
  match sorted_attrs d with
  | [] => EmptyString
  | l => (" " ++ String.concat " " (map decode_attr l))%string
  end.

(** [HTMLTreeBuilder.empty_element_tags]. *)
Definition empty_element_tags : list string :=
  ["area"; "base"; "br"; "col"; "embed"; "hr"; "img"; "input"; "keygen";
   "link"; "menuitem"; "meta"; "param"; "source"; "track"; "wbr";
   "basefont"; "bgsound"; "command"; "frame"; "image"; "isindex"; "nextid";
   "spacer"].

Definition can_be_empty_element (nm : string) : bool :=
  existsb (String.eqb nm) empty_element_tags.

(** [output_ready] of a text leaf whose parent is named [parent]: a plain
    string is escaped unless it sits in [script] or [style]; a
    preformatted string is wrapped in its class's prefix and suffix. *)
Definition output_ready (parent : string) (k : text_kind) (s : string) : string :=
  match k with
  | KString =>
      if String.eqb parent "script" || String.eqb parent "style" then s
      else substitute_xml s
  | KComment => ("<!--" ++ s ++ "-->")%string
  | KCData => ("<![CDATA[" ++ s ++ "]]>")%string
  | KDoctype => ("<!DOCTYPE " ++ s ++ ">" ++ String (ascii_of_nat 10) EmptyString)%string
  | KDeclaration => ("<?" ++ s ++ "?>")%string
  | KProcessingInstruction => ("<?" ++ s ++ ">")%string
  end.

Fixpoint decode (t : Tag) : string :=
  match t with
  | mkTag _ nm at_ hd cs =>
      let inner :=
        String.concat EmptyString
          (map (fun c => match c with
                         | ETag x => decode x
                         | EText k s => output_ready nm k s
                         end) cs) in
      if hd then inner
      else if (List.length cs =? 0)%nat && can_be_empty_element nm then
        ("<" ++ nm ++ attribute_string at_ ++ "/>")%string
      else
        ("<" ++ nm ++ attribute_string at_ ++ ">" ++ inner
         ++ "</" ++ nm ++ ">")%string
  end.

(** ** The pipeline of [html_dom_visualize] *)

Section Pipeline.
Variable str_dict : attrs_t -> string.
(** Python's [str] of a list of strings, a built-in. *)
Variable str_list : list string -> string.

(** What an f-string prints for an attribute value. *)
Definition format_value (v : attr_value) : string :=
  match v with
  | AStr s => s
  | AList l => str_list l
  end.

Definition default_mask_fn (node : Tag) : string :=
  if String.eqb (name node) "a" then
    ("href: " ++ format_value (match dict_get "href" (attrs node) with
                               | Some v => v
                               | None => AStr "N/A"
                               end))%string
  else decode node.

(** [html_dom_visualize] from the parsed [soup] to the chart data. *)
Definition html_dom_visualize (soup : Tag)
    (branch_filter : option (Tag -> bool))
    (should_mask : option (Tag -> bool))
    (mask_fn : option (Tag -> string)) : option tree_data :=
  let soup1 :=
    match branch_filter with
    | Some _ => tree (_filter_branches branch_filter soup)
    | None => soup
    end in
  let soup2 :=
    match should_mask with
    | Some sm =>
        masked (_mask_elements sm
                  (Some (match mask_fn with
                         | Some f => f
                         | None => default_mask_fn
                         end)) soup1)
    | None => soup1
    end in
  _plot_dom_treemap str_dict soup2.
End Pipeline.

(** ** The document of the specification's scenario *)

(** What [html.parser] builds for
    [<html><body><div id="a"><span>x</span></div><p>y</p></body></html>];
    the six objects have the identities [o0] to [o5]. *)
Definition scenario_soup (o0 o1 o2 o3 o4 o5 : N) : Tag :=
  mkTag o0 "[document]" [] true
    [ETag (mkTag o1 "html" [] false
      [ETag (mkTag o2 "body" [] false
        [ETag (mkTag o3 "div" [("id", AStr "a")] false
           [ETag (mkTag o4 "span" [] false [EText KString "x"])]);
         ETag (mkTag o5 "p" [] false [EText KString "y"])])])].

Definition scenario_div (o3 o4 : N) : Tag :=
  mkTag o3 "div" [("id", AStr "a")] false
    [ETag (mkTag o4 "span" [] false [EText KString "x"])].

Definition scenario_markup : string :=
  ("<div id=" ++ dquote ++ "a" ++ dquote ++ "><span>x</span></div>")%string.

Definition is_named (nm : string) (t : Tag) : bool := String.eqb (name t) nm.

(** ** [main]: the predicates built from the command line *)

(** [lambda node: node.name in args.branch], and the same for [args.mask]. *)
Definition name_in (tag_names : list string) (node : Tag) : bool :=
  existsb (String.eqb (name node)) tag_names.

(** [(lambda ...) if args.branch else None]: an option that was not given
    is [None], and an empty list is falsy too. *)
Definition cli_predicate (arg : option (list string)) : option (Tag -> bool) :=
  match arg with
  | Some (n :: l) => Some (name_in (n :: l))
  | _ => None
  end.

(** The call [main] makes, from the parsed document on. *)
Definition main (str_dict : attrs_t -> string) (str_list : list string -> string)
    (soup : Tag) (branch mask : option (list string)) : option tree_data :=
  html_dom_visualize str_dict str_list soup
    (cli_predicate branch) (cli_predicate mask) None.

(** ** Vocabulary of the properties *)

(** The children a run of [filter_loop] leaves in place. *)
Fixpoint surviving (rec : Tag -> filter_run) (children : list (PageElement Tag))
    : list (PageElement Tag) :=
  match children with
  | [] => []
  | ETag child :: rest =>
      if kept (rec child) then ETag (tree (rec child)) :: surviving rec rest
      else surviving rec rest
  | EText k s :: rest => EText k s :: surviving rec rest
  end.

(** Every element of [t] satisfies [keep] or has a descendant that does. *)
Definition filter_guarantee (keep : Tag -> bool) (t : Tag) : Prop :=
  forall e, In e (elements t) ->
    keep e = true \/ exists d, In d (descendants e) /\ keep d = true.

(** [e] satisfies [keep], or a descendant of [e] does, or one of the proper
    ancestors [anc] of [e] does. *)
Definition keep_related (keep : Tag -> bool) (anc : list Tag) (e : Tag) : Prop :=
  keep e = true
  \/ (exists d, In d (descendants e) /\ keep d = true)
  \/ (exists a, In a anc /\ keep a = true).

(** [g] applied to the children that are [Tag]s. *)
Definition map_tags (g : Tag -> Tag) (children : list (PageElement Tag))
    : list (PageElement Tag) :=
  map (fun c => match c with
                | ETag t => ETag (g t)
                | EText k s => EText k s
                end) children.

(** The same object with the same name and attributes. *)
Definition same_head (x y : Tag) : Prop :=
  oid x = oid y /\ name x = name y /\ attrs x = attrs y.

(** Every element of [t] that carries an [el-mask] attribute has no
    element child and a non-empty string as annotation. *)
Definition mask_guarantee (t : Tag) : Prop :=
  forall e v, In e (elements t) ->
    dict_get "el-mask" (attrs e) = Some v ->
    tags (contents e) = [] /\ exists s, v = AStr s /\ s <> EmptyString.

(** The elements [traverse] reaches, in pre-order: the root, then the
    subtree of each child that has a name, left to right. *)
Fixpoint preorder (t : Tag) : list Tag :=
  match t with
  | mkTag _ _ _ _ cs =>
      t :: flat_map (on_tag (fun x => if String.eqb (name x) EmptyString then []
                                      else preorder x)) cs
  end.

(** The pairs (id, parent id) in pre-order. *)
Fixpoint records (parent_id : string) (t : Tag) : list (string * string) :=
  match t with
  | mkTag _ _ _ _ cs =>
      (node_id t, parent_id)
      :: flat_map (on_tag (fun x => if String.eqb (name x) EmptyString then []
                                    else records (node_id t) x)) cs
  end.

(** Each record's parent id is among the ids emitted before it,
    [earlier] being those emitted before the list starts. *)
Fixpoint parents_precede (earlier : list string) (recs : list (string * string))
    : Prop :=
  match recs with
  | [] => True
  | (i, p) :: rest => In p earlier /\ parents_precede (i :: earlier) rest
  end.

(** No element of [t] holds a list under [el-mask]. *)
Definition mask_is_text (t : Tag) : Prop :=
  forall e l, In e (elements t) -> dict_get "el-mask" (attrs e) <> Some (AList l).

(** The hover texts of the elements [l], unless one of them raises. *)
Fixpoint all_hovers (str_dict : attrs_t -> string) (l : list Tag)
    : option (list string) :=
  match l with
  | [] => Some []
  | e :: rest =>
      match add_line_breaks_value (hover_source str_dict e),
            all_hovers str_dict rest with
      | Some h, Some hs => Some (h :: hs)
      | _, _ => None
      end
  end.

(** [td] after the elements [els], whose records are [recs], were appended. *)
Definition emit (str_dict : attrs_t -> string) (els : list Tag)
    (recs : list (string * string)) (td : tree_data) : option tree_data :=
  match all_hovers str_dict els with
  | Some hs =>
      Some (mkData (ids td ++ map node_id els)
                   (labels td ++ map name els)
                   (parents td ++ map snd recs)
                   (hover_text td ++ hs))
  | None => None
  end.

(** The hover text [traverse] computes for an element whose [el-mask],
    if any, is a string. *)
Definition hover_of (str_dict : attrs_t -> string) (e : Tag) : string :=
  _add_line_breaks
    (match dict_get "el-mask" (attrs e) with
     | Some (AStr text) => text
     | _ => str_dict (attrs e)
     end)
    default_char_limit.

(** No character of [s] is whitespace. *)
Fixpoint no_space (s : string) : bool :=
  match s with
  | EmptyString => true
  | String c rest => negb (isspace c) && no_space rest
  end.

(** A word as [split] yields them: not empty, free of whitespace. *)
Definition is_word (w : string) : Prop := w <> EmptyString /\ no_space w = true.

(** The characters of [ws], one more for each word: what [current_length]
    holds on the first line. *)
Fixpoint packed_length (ws : list string) : Z :=
  match ws with
  | [] => 0%Z
  | w :: rest => (len w + 1 + packed_length rest)%Z
  end.

(** The text leaves among a list of children, in order. *)
Fixpoint text_leaves (cs : list (PageElement Tag)) : list (text_kind * string) :=
  match cs with
  | [] => []
  | ETag _ :: rest => text_leaves rest
  | EText k s :: rest => (k, s) :: text_leaves rest
  end.

(** No proper ancestor in the chain [anc] satisfies [keep]. *)
Definition unshadowed (keep : Tag -> bool) (anc : list Tag) : bool :=
  forallb (fun a => negb (keep a)) anc.

(** A completed line of [_add_line_breaks]: the words and the marker. *)
Definition marked (line : list string) : string :=
  (String.concat " " line ++ "<br />")%string.

(** The id of the innermost ancestor of the chain [anc] (outermost first),
    [root_parent] for the empty chain. *)
Definition parent_id_of (root_parent : string) (anc : list Tag) : string :=
  last (map node_id anc) root_parent.

(** Every character of [s] is whitespace. *)
Fixpoint all_space (s : string) : bool :=
  match s with
  | EmptyString => true
  | String c rest => isspace c && all_space rest
  end.

(** What the loop of [_add_line_breaks] maintains. [ls] are the completed
    lines, [cur] the line being filled. On the first line [cl] counts a
    space after every word, on the later ones it is the length of the
    joined line; a line reaches two words only through the test against
    the limit. *)
Definition wrap_invariant (char_limit : Z) (ls : list (list string))
    (cur : list string) (cl : Z) : Prop :=
  match ls with
  | [] =>
      cl = packed_length cur
      /\ (cur <> [] -> (len (String.concat " " cur) <= char_limit)%Z)
  | first :: later =>
      cur <> []
      /\ cl = (packed_length cur - 1)%Z
      /\ (2 <= List.length cur -> (len (String.concat " " cur) <= char_limit + 1)%Z)
      /\ (first <> [] -> (len (String.concat " " first) <= char_limit)%Z)
      /\ Forall (fun l => l <> []
                          /\ (2 <= List.length l ->
                              (len (String.concat " " l) <= char_limit + 1)%Z))
                later
  end.

(** The word that opens the line [next] did not fit at the end of the
    line [l] within [bound] characters. *)
Definition did_not_fit (bound : Z) (l next : list string) : Prop :=
  match next with
  | [] => True
  | w :: _ => (len (String.concat " " (l ++ [w])) > bound)%Z
  end.

(** Every line of [lines] but the last was closed because the first word
    of the line after it did not fit: within [char_limit + extra] for the
    head of [lines], within [char_limit + 1] for the lines after it. *)
Fixpoint closed_late (char_limit extra : Z) (lines : list (list string)) : Prop :=
  match lines with
  | [] => True
  | l :: rest =>
      match rest with
      | [] => True
      | next :: _ => did_not_fit (char_limit + extra) l next
      end
      /\ closed_late char_limit 1 rest
  end.

(** * Properties *)

(** ** Induction on trees *)

Lemma Tag_induction (P : Tag -> Prop) :
  (forall o nm at_ hd cs, Forall P (tags cs) -> P (mkTag o nm at_ hd cs)) ->
  forall t, P t.
Proof.
  intros H. fix IH 1. intros [o nm at_ hd cs]. apply H.
  induction cs as [|[c|k s] cs IHcs]; simpl.
  - constructor.
  - constructor; [apply IH | exact IHcs].
  - exact IHcs.
Qed.

Lemma in_tags (cs : list (PageElement Tag)) (t : Tag) :
  In t (tags cs) <-> In (ETag t) cs.
Proof.
  induction cs as [|[c|k s] cs IH]; simpl.
  - tauto.
  - rewrite IH. split; intros [H|H]; auto; left; congruence.
  - rewrite IH. split; auto. intros [H|H]; [discriminate|auto].
Qed.

Lemma flat_map_on_tag {A : Type} (g : Tag -> list A) (cs : list (PageElement Tag)) :
  flat_map (on_tag g) cs = flat_map g (tags cs).
Proof.
  induction cs as [|[c|k s] cs IH]; simpl; auto. now rewrite IH.
Qed.

Lemma elements_eq (t : Tag) : elements t = t :: descendants t.
Proof. now destruct t. Qed.

Lemma in_descendants (t d : Tag) :
  In d (descendants t) <-> exists c, In c (tags (contents t)) /\ In d (elements c).
Proof.
  unfold descendants. rewrite flat_map_on_tag, in_flat_map. tauto.
Qed.

Lemma elements_self (t : Tag) : In t (elements t).
Proof. rewrite elements_eq. now left. Qed.

Lemma elements_trans (t : Tag) :
  forall a d, In a (elements t) -> In d (elements a) -> In d (elements t).
Proof.
  induction t as [o nm at_ hd cs IH] using Tag_induction.
  intros a d Ha Hd. rewrite elements_eq in Ha. destruct Ha as [<-|Ha]; auto.
  rewrite elements_eq. right.
  apply in_descendants in Ha. destruct Ha as (c & Hc & Ha). simpl in Hc.
  apply in_descendants. exists c. split; auto.
  rewrite Forall_forall in IH. eapply IH; eauto.
Qed.

Lemma descendants_trans (t a d : Tag) :
  In a (elements t) -> In d (descendants a) -> In d (descendants t).
Proof.
  intros Ha Hd. rewrite elements_eq in Ha. destruct Ha as [<-|Ha]; auto.
  apply in_descendants in Ha. destruct Ha as (c & Hc & Ha).
  apply in_descendants. exists c. split; auto.
  apply elements_trans with a; auto. rewrite elements_eq. now right.
Qed.

(** ** Branch filter *)

Lemma filter_loop_spec (rec : Tag -> filter_run) (cs : list (PageElement Tag)) :
  forall sk,
    filter_loop rec cs sk
    = (sk || existsb (fun c => kept (rec c)) (tags cs),
       surviving rec cs,
       flat_map (fun c => visited (rec c)) (tags cs)).
Proof.
  induction cs as [|[c|k s] cs IH]; intros sk; simpl.
  - now rewrite orb_false_r.
  - destruct (kept (rec c)); rewrite IH; simpl.
    + now rewrite orb_true_r.
    + reflexivity.
  - now rewrite IH.
Qed.

Lemma in_tags_surviving (rec : Tag -> filter_run) (cs : list (PageElement Tag)) (x : Tag) :
  In x (tags (surviving rec cs)) <->
  exists c, In c (tags cs) /\ kept (rec c) = true /\ x = tree (rec c).
Proof.
  induction cs as [|[c|k s] cs IH]; simpl.
  - split; [tauto | intros (c & [] & _)].
  - destruct (kept (rec c)) eqn:E; simpl; rewrite IH; split.
    + intros [<-|(c' & H1 & H2)]; [exists c; auto | exists c'; auto].
    + intros (c' & [<-|H1] & H2 & H3); [now left | right; eauto].
    + intros (c' & H1 & H2); eauto.
    + intros (c' & [<-|H1] & H2 & H3); [congruence | eauto].
  - exact IH.
Qed.

Section BranchFilter.
Variable keep : Tag -> bool.

Local Abbreviation run := (_filter_branches (Some keep)).

Lemma filter_match (node : Tag) :
  keep node = true -> run node = mkRun true node [node].
Proof. intros H. destruct node. simpl. now rewrite H. Qed.

Lemma filter_descend o nm at_ hd cs :
  keep (mkTag o nm at_ hd cs) = false ->
  run (mkTag o nm at_ hd cs)
  = mkRun (existsb (fun c => kept (run c)) (tags cs))
          (mkTag o nm at_ hd (surviving run cs))
          (mkTag o nm at_ hd cs :: flat_map (fun c => visited (run c)) (tags cs)).
Proof.
  intros H. simpl. rewrite H. simpl.
  destruct cs as [|c cs]; [reflexivity|].
  cbn [List.length Nat.eqb andb]. now rewrite filter_loop_spec.
Qed.

(** A node that reports [False] is left without element children. *)
Lemma filter_dropped (t : Tag) :
  kept (run t) = false -> tags (contents (tree (run t))) = [].
Proof.
  destruct t as [o nm at_ hd cs]. destruct (keep (mkTag o nm at_ hd cs)) eqn:K.
  - rewrite filter_match by assumption. discriminate.
  - rewrite filter_descend by assumption. cbn [tree kept visited]. intros E.
    destruct (tags (surviving run cs)) as [|x l] eqn:S; auto.
    assert (Hx : In x (tags (surviving run cs))) by (rewrite S; now left).
    apply in_tags_surviving in Hx. destruct Hx as (c & Hc & Hk & _).
    assert (existsb (fun c => kept (run c)) (tags cs) = true)
      by (apply existsb_exists; eauto).
    congruence.
Qed.

Lemma surviving_fixed (cs : list (PageElement Tag)) :
  Forall (fun c => kept (run c) = true /\ tree (run c) = c) (tags cs) ->
  surviving run cs = cs.
Proof.
  induction cs as [|[c|k s] cs IH]; simpl; intros H; auto.
  - inversion H as [|? ? [H1 H2] H3]; subst. rewrite H1, H2. f_equal. auto.
  - f_equal. auto.
Qed.

(** A node that reports [True] is a fixed point of the filter. *)
Lemma filter_kept_fixed (t : Tag) :
  kept (run t) = true ->
  kept (run (tree (run t))) = true /\ tree (run (tree (run t))) = tree (run t).
Proof.
  induction t as [o nm at_ hd cs IH] using Tag_induction.
  destruct (keep (mkTag o nm at_ hd cs)) eqn:K.
  - rewrite filter_match by assumption. cbn [tree kept visited].
    rewrite filter_match by assumption. auto.
  - rewrite filter_descend by assumption. cbn [tree kept visited]. intros E.
    set (t' := mkTag o nm at_ hd (surviving run cs)).
    assert (F : Forall (fun c => kept (run c) = true /\ tree (run c) = c)
                  (tags (surviving run cs))).
    { apply Forall_forall. intros x Hx.
      apply in_tags_surviving in Hx. destruct Hx as (c & Hc & Hk & ->).
      rewrite Forall_forall in IH. now apply IH. }
    destruct (keep t') eqn:K'.
    + rewrite filter_match by assumption. auto.
    + unfold t'. rewrite filter_descend by assumption. cbn [tree kept visited].
      rewrite (surviving_fixed _ F). split; auto.
      apply existsb_exists in E. destruct E as (c & Hc & Hk).
      apply existsb_exists. exists (tree (run c)). split.
      * apply in_tags_surviving. eauto.
      * rewrite Forall_forall in IH. now apply IH.
Qed.

Lemma filter_twice (t : Tag) :
  tree (run (tree (run t))) = tree (run t).
Proof.
  destruct (kept (run t)) eqn:E.
  - now apply filter_kept_fixed.
  - pose proof (filter_dropped t E) as D.
    destruct (tree (run t)) as [o nm at_ hd cs] eqn:T. simpl in D.
    destruct (keep (mkTag o nm at_ hd cs)) eqn:K.
    + now rewrite filter_match.
    + rewrite filter_descend by assumption. cbn [tree kept visited]. f_equal.
      apply surviving_fixed. rewrite D. constructor.
Qed.
End BranchFilter.

Lemma in_ancestry (t : Tag) (anc : list Tag) (e : Tag) :
  In (anc, e) (ancestry t) <->
  (anc = [] /\ e = t) \/
  exists c anc', In c (tags (contents t)) /\ anc = t :: anc' /\ In (anc', e) (ancestry c).
Proof.
  destruct t as [o nm at_ hd cs]. cbn [ancestry contents].
  rewrite flat_map_on_tag. split.
  - intros [H|H]; [left; split; congruence|right].
    apply in_map_iff in H. destruct H as ([anc' e'] & H1 & H2).
    apply in_flat_map in H2. destruct H2 as (c & Hc & H2).
    simpl in H1. inversion H1; subst. eauto.
  - intros [[-> ->]|(c & anc' & Hc & -> & H)]; [now left|right].
    apply in_map_iff. exists (anc', e). split; auto.
    apply in_flat_map. eauto.
Qed.

Lemma ancestry_elements (t : Tag) :
  forall anc e, In (anc, e) (ancestry t) -> In e (elements t).
Proof.
  induction t as [o nm at_ hd cs IH] using Tag_induction.
  intros anc e H. apply in_ancestry in H.
  destruct H as [[_ ->]|(c & anc' & Hc & _ & H)]; [apply elements_self|].
  rewrite elements_eq. right. apply in_descendants. exists c. split; auto.
  rewrite Forall_forall in IH. eapply IH; eauto.
Qed.

(** [ancestry] lists every element of the tree. *)
Lemma ancestry_complete (t : Tag) :
  forall e, In e (elements t) -> exists anc, In (anc, e) (ancestry t).
Proof.
  induction t as [o nm at_ hd cs IH] using Tag_induction.
  rewrite Forall_forall in IH. intros e He. rewrite elements_eq in He.
  destruct He as [<-|He].
  - exists []. apply in_ancestry. now left.
  - apply in_descendants in He. destruct He as (c & Hc & He).
    destruct (IH c Hc e He) as (anc & Hanc).
    exists (mkTag o nm at_ hd cs :: anc). apply in_ancestry. right. eauto.
Qed.

Section FilterRetention.
Variable keep : Tag -> bool.
Local Abbreviation run := (_filter_branches (Some keep)).

Lemma unfiltered_below_match (t : Tag) (anc : list Tag) (e : Tag) :
  keep t = true -> In (anc, e) (ancestry t) -> keep_related keep anc e.
Proof.
  intros K H. apply in_ancestry in H.
  destruct H as [[-> ->]|(c & anc' & _ & -> & _)].
  - now left.
  - right; right. exists t. split; [now left|auto].
Qed.

Lemma filter_kept_related (t : Tag) :
  kept (run t) = true ->
  forall anc e, In (anc, e) (ancestry (tree (run t))) -> keep_related keep anc e.
Proof.
  induction t as [o nm at_ hd cs IH] using Tag_induction.
  rewrite Forall_forall in IH.
  destruct (keep (mkTag o nm at_ hd cs)) eqn:K.
  - rewrite filter_match by assumption. cbn [tree kept]. intros _ anc e.
    now apply unfiltered_below_match.
  - rewrite filter_descend by assumption. cbn [tree kept]. intros E anc e H.
    set (t' := mkTag o nm at_ hd (surviving run cs)) in *.
    apply in_ancestry in H. cbn [contents t'] in H.
    destruct H as [[-> ->]|(c' & anc' & Hc' & -> & H)].
    + right; left.
      apply existsb_exists in E. destruct E as (c & Hc & Hk).
      assert (Hin : In (tree (run c)) (tags (contents t')))
        by (apply in_tags_surviving; eauto).
      assert (Hroot : In ([], tree (run c)) (ancestry (tree (run c))))
        by (apply in_ancestry; now left).
      destruct (IH c Hc Hk [] (tree (run c)) Hroot)
        as [H|[(d & Hd & H)|(a & [] & _)]].
      * exists (tree (run c)). split; auto.
        apply in_descendants. exists (tree (run c)). split; auto.
        apply elements_self.
      * exists d. split; auto.
        apply in_descendants. exists (tree (run c)). split; auto.
        rewrite elements_eq. now right.
    + apply in_tags_surviving in Hc'. destruct Hc' as (c & Hc & Hk & ->).
      destruct (IH c Hc Hk anc' e H) as [H1|[H1|(a & Ha & H1)]].
      * now left.
      * right; now left.
      * right; right. exists a. split; [now right|auto].
Qed.
End FilterRetention.

(** C1, as stated, fails: with [keep] true of [div] only, the [span] below
    the [div] of the scenario document stays in the tree, although neither
    it nor any descendant of it satisfies [keep]; the filter returns at the
    matching [div] and never looks below it. *)
Lemma filter_guarantee_fails :
  ~ filter_guarantee (is_named "div")
      (tree (_filter_branches (Some (is_named "div")) (scenario_soup 0 1 2 3 4 5))).
Proof.
  intros G.
  destruct (G (mkTag 4 "span" [] false [EText KString "x"])) as [H|(d & Hd & H)].
  - vm_compute. auto 10.
  - discriminate H.
  - destruct Hd.
Qed.

(** C1, amended: after Branch Filter has run with a predicate [keep], every
    element still in the tree, other than the root the filter was invoked
    on, satisfies [keep], or has a descendant that satisfies [keep], or has
    a proper ancestor that satisfies [keep]: the subtree of a matching
    element is kept whole, without being tested. *)
Theorem filter_retention (keep : Tag -> bool) (t : Tag) (anc : list Tag) (e : Tag) :
  In (anc, e) (ancestry (tree (_filter_branches (Some keep) t))) ->
  anc <> [] ->
  keep_related keep anc e.
Proof.
  intros H Hanc.
  destruct (kept (_filter_branches (Some keep) t)) eqn:E.
  - eapply filter_kept_related; eauto.
  - apply filter_dropped in E. apply in_ancestry in H.
    destruct H as [[-> _]|(c & _ & Hc & _)]; [congruence|].
    rewrite E in Hc. destruct Hc.
Qed.

Lemma filter_retention_witness :
  let t' := tree (_filter_branches (Some (is_named "div")) (scenario_soup 0 1 2 3 4 5)) in
  let p := nth 4 (ancestry t') ([], t') in
  keep_related (is_named "div") (fst p) (snd p).
Proof.
  intros t' p.
  apply (filter_retention (is_named "div") (scenario_soup 0 1 2 3 4 5)).
  - vm_compute. auto 10.
  - vm_compute. discriminate.
Defined.

(** C4: Branch Filter is idempotent. Filtering the tree a first run left
    behind, with the same predicate (or with none), gives that tree back. *)
Theorem filter_idempotent (branch_filter : option (Tag -> bool)) (t : Tag) :
  tree (_filter_branches branch_filter (tree (_filter_branches branch_filter t)))
  = tree (_filter_branches branch_filter t).
Proof.
  destruct branch_filter as [keep|].
  - apply filter_twice.
  - destruct t; reflexivity.
Qed.

(** C9: when [keep] holds of the node Branch Filter is invoked on, the run
    reports [True], the node and everything below it is as before, and the
    function was invoked on that node alone, on no descendant. *)
Theorem filter_match_is_immediate (keep : Tag -> bool) (node : Tag) :
  keep node = true ->
  let r := _filter_branches (Some keep) node in
  kept r = true /\ tree r = node /\ visited r = [node].
Proof.
  intros K r. unfold r. rewrite filter_match by assumption. auto.
Qed.

Lemma filter_match_is_immediate_witness :
  let node := scenario_soup 0 1 2 3 4 5 in
  let r := _filter_branches (Some (is_named "[document]")) node in
  kept r = true /\ tree r = node /\ visited r = [node].
Proof.
  apply (filter_match_is_immediate (is_named "[document]") (scenario_soup 0 1 2 3 4 5)).
  reflexivity.
Defined.

(** ** Subtree masker *)

Lemma dict_get_set (k : string) (v : attr_value) (d : attrs_t) :
  dict_get k (dict_set k v d) = Some v.
Proof.
  induction d as [|[k' v'] d IH]; simpl.
  - now rewrite String.eqb_refl.
  - destruct (String.eqb k' k) eqn:E; simpl.
    + now rewrite String.eqb_refl.
    + now rewrite E.
Qed.

Lemma tags_decompose (cs : list (PageElement Tag)) : tags (decompose_tags cs) = [].
Proof. induction cs as [|[c|k s] cs IH]; simpl; auto. Qed.

Lemma tags_map_tags (g : Tag -> Tag) (cs : list (PageElement Tag)) :
  tags (map_tags g cs) = map g (tags cs).
Proof.
  induction cs as [|[c|k s] cs IH]; simpl; auto. f_equal. exact IH.
Qed.

Lemma mask_loop_spec (rec : Tag -> mask_run) (cs : list (PageElement Tag)) :
  mask_loop rec cs
  = (map_tags (fun c => masked (rec c)) cs,
     flat_map (fun c => mask_visited (rec c)) (tags cs)).
Proof.
  induction cs as [|[c|k s] cs IH]; simpl; auto; now rewrite IH.
Qed.

Lemma NoDup_app_disjoint {A : Type} (l l' : list A) (x : A) :
  NoDup (l ++ l') -> In x l -> ~ In x l'.
Proof.
  induction l as [|a l IH]; simpl; intros N H; [destruct H|].
  inversion N as [|? ? Ha N']; subst. destruct H as [->|H]; auto.
  intros H'. apply Ha. apply in_or_app. now right.
Qed.

(** In a tree whose objects are pairwise distinct, the subtrees of two
    different children share no object. *)
Lemma sibling_oids_disjoint (F : Tag -> list Tag) (l1 l2 : list Tag) (c c2 : Tag) (y : N) :
  NoDup (map oid (flat_map F (l1 ++ c :: l2))) ->
  In y (map oid (F c)) ->
  In c2 l1 \/ In c2 l2 ->
  ~ In y (map oid (F c2)).
Proof.
  rewrite flat_map_app, map_app. simpl. rewrite map_app.
  intros N Hy [H|H] Hy2.
  - apply (NoDup_app_disjoint _ _ y N).
    + apply in_map_iff in Hy2. destruct Hy2 as (z & <- & Hz).
      apply in_map, in_flat_map. eauto.
    + apply in_or_app. now left.
  - apply NoDup_app_remove_l in N. apply (NoDup_app_disjoint _ _ y N); auto.
    apply in_map_iff in Hy2. destruct Hy2 as (z & <- & Hz).
    apply in_map, in_flat_map. eauto.
Qed.

Lemma NoDup_child_oids (F : Tag -> list Tag) (l : list Tag) (c : Tag) :
  NoDup (map oid (flat_map F l)) -> In c l -> NoDup (map oid (F c)).
Proof.
  intros N H. apply in_split in H. destruct H as (l1 & l2 & ->).
  rewrite flat_map_app, map_app in N. apply NoDup_app_remove_l in N.
  simpl in N. rewrite map_app in N. now apply NoDup_app_remove_r in N.
Qed.

Section Masker.
Variable should_mask : Tag -> bool.
Variable mask_fn : Tag -> string.
Local Abbreviation mrun := (_mask_elements should_mask (Some mask_fn)).

Lemma mask_match o nm at_ hd cs :
  should_mask (mkTag o nm at_ hd cs) = true ->
  mrun (mkTag o nm at_ hd cs)
  = mkMask (mkTag o nm
              (dict_set "el-mask" (AStr (mask_fn (mkTag o nm at_ hd cs))) at_)
              hd (decompose_tags cs))
           [mkTag o nm at_ hd cs].
Proof. intros H. simpl. now rewrite H. Qed.

Lemma mask_descend o nm at_ hd cs :
  should_mask (mkTag o nm at_ hd cs) = false ->
  mrun (mkTag o nm at_ hd cs)
  = mkMask (mkTag o nm at_ hd (map_tags (fun c => masked (mrun c)) cs))
           (mkTag o nm at_ hd cs
            :: flat_map (fun c => mask_visited (mrun c)) (tags cs)).
Proof. intros H. simpl. rewrite H. now rewrite mask_loop_spec. Qed.

Lemma mask_keeps_oid (t : Tag) : oid (masked (mrun t)) = oid t.
Proof.
  destruct t as [o nm at_ hd cs].
  destruct (should_mask (mkTag o nm at_ hd cs)) eqn:M.
  - now rewrite mask_match.
  - now rewrite mask_descend.
Qed.

Lemma masked_elements (t : Tag) :
  elements (masked (mrun t))
  = masked (mrun t)
    :: (if should_mask t then []
        else flat_map (fun c => elements (masked (mrun c))) (tags (contents t))).
Proof.
  destruct t as [o nm at_ hd cs].
  destruct (should_mask (mkTag o nm at_ hd cs)) eqn:M.
  - rewrite mask_match by assumption. cbn [masked elements].
    now rewrite flat_map_on_tag, tags_decompose.
  - rewrite mask_descend by assumption. cbn [masked elements contents].
    rewrite flat_map_on_tag, tags_map_tags. f_equal.
    induction (tags cs) as [|c l IH]; simpl; auto. now rewrite IH.
Qed.

(** The masker removes objects, it adds none. *)
Lemma mask_oids_incl (t : Tag) :
  incl (map oid (elements (masked (mrun t)))) (map oid (elements t)).
Proof.
  induction t as [o nm at_ hd cs IH] using Tag_induction.
  rewrite Forall_forall in IH.
  rewrite masked_elements, elements_eq. unfold descendants.
  rewrite flat_map_on_tag. cbn [contents map]. rewrite mask_keeps_oid.
  intros y [<-|Hy]; [now left|right].
  destruct (should_mask _); [destruct Hy|].
  apply in_map_iff in Hy. destruct Hy as (z & <- & Hz).
  apply in_flat_map in Hz. destruct Hz as (c & Hc & Hz).
  assert (Hy : In (oid z) (map oid (elements c))) by (apply IH; auto using in_map).
  apply in_map_iff in Hy. destruct Hy as (z' & E & Hz').
  rewrite <- E. apply in_map, in_flat_map. eauto.
Qed.

(** The function is invoked exactly on the objects that stay in the tree. *)
Lemma mask_visited_oids (t : Tag) :
  map oid (mask_visited (mrun t)) = map oid (elements (masked (mrun t))).
Proof.
  induction t as [o nm at_ hd cs IH] using Tag_induction.
  rewrite masked_elements. cbn [map contents]. rewrite mask_keeps_oid.
  destruct (should_mask (mkTag o nm at_ hd cs)) eqn:M.
  - now rewrite mask_match.
  - rewrite mask_descend by assumption. cbn [mask_visited map oid]. f_equal.
    induction IH as [|c l Hc Hl IHl]; simpl; auto.
    now rewrite !map_app, Hc, IHl.
Qed.
End Masker.

Section MaskerGuarantees.
Variable should_mask : Tag -> bool.
Variable mask_fn : Tag -> string.
Local Abbreviation mrun := (_mask_elements should_mask (Some mask_fn)).

Lemma masked_annotation (t : Tag) :
  (forall e, In e (elements t) -> dict_get "el-mask" (attrs e) = None) ->
  forall e v, In e (elements (masked (mrun t))) ->
    dict_get "el-mask" (attrs e) = Some v ->
    tags (contents e) = []
    /\ exists e0, In e0 (elements t) /\ oid e0 = oid e
                  /\ should_mask e0 = true /\ v = AStr (mask_fn e0).
Proof.
  induction t as [o nm at_ hd cs IH] using Tag_induction.
  rewrite Forall_forall in IH. intros Hno e v He Hv.
  rewrite masked_elements in He. cbn [contents] in He.
  destruct (should_mask (mkTag o nm at_ hd cs)) eqn:M.
  - destruct He as [<-|[]]. rewrite mask_match in * by assumption.
    cbn [masked attrs contents oid] in *. rewrite dict_get_set in Hv.
    split; [apply tags_decompose|].
    exists (mkTag o nm at_ hd cs). repeat split; auto using elements_self.
    congruence.
  - destruct He as [<-|He].
    + rewrite mask_descend in Hv by assumption. cbn [masked attrs] in Hv.
      specialize (Hno _ (elements_self _)). cbn [attrs] in Hno. congruence.
    + apply in_flat_map in He. destruct He as (c & Hc & He).
      assert (Hsub : forall x, In x (elements c) ->
                               In x (elements (mkTag o nm at_ hd cs))).
      { intros x Hx. rewrite elements_eq. right.
        apply in_descendants. eauto. }
      destruct (IH c Hc (fun x Hx => Hno x (Hsub x Hx)) e v He Hv)
        as (Hleaf & e0 & H0 & H1 & H2 & H3).
      split; auto. exists e0. auto.
Qed.

(** The topmost match on a path stays where it was, below ancestors the
    masker did not touch, with its annotation and no element child. *)
Lemma mask_topmost_present (t : Tag) :
  forall anc a,
    In (anc, a) (ancestry t) ->
    Forall (fun x => should_mask x = false) anc ->
    should_mask a = true ->
    exists anc' a',
      In (anc', a') (ancestry (masked (mrun t)))
      /\ Forall2 same_head anc anc'
      /\ oid a' = oid a /\ name a' = name a
      /\ dict_get "el-mask" (attrs a') = Some (AStr (mask_fn a))
      /\ tags (contents a') = [].
Proof.
  induction t as [o nm at_ hd cs IH] using Tag_induction.
  rewrite Forall_forall in IH. intros anc a H Hanc Ha.
  apply in_ancestry in H. cbn [contents] in H.
  destruct H as [[-> ->]|(c & anc0 & Hc & -> & H)].
  - exists [], (masked (mrun (mkTag o nm at_ hd cs))).
    split; [apply in_ancestry; now left|]. split; [constructor|].
    rewrite mask_match by assumption. cbn [masked oid name attrs contents].
    rewrite dict_get_set, tags_decompose. auto.
  - inversion Hanc as [|? ? M Hanc0]; subst.
    destruct (IH c Hc anc0 a H Hanc0 Ha) as (anc' & a' & H1 & H2 & H3).
    exists (masked (mrun (mkTag o nm at_ hd cs)) :: anc'), a'.
    split; [|split; auto].
    + apply in_ancestry. right. exists (masked (mrun c)), anc'.
      split; [|split; auto].
      rewrite mask_descend by assumption. cbn [masked contents].
      rewrite tags_map_tags. apply in_map_iff. exists c. auto.
    + constructor; auto.
      rewrite mask_descend by assumption. now repeat split.
Qed.

(** Nothing below the topmost match stays in the tree. *)
Lemma mask_topmost_clears (t : Tag) :
  forall anc a d,
    NoDup (map oid (elements t)) ->
    In (anc, a) (ancestry t) ->
    Forall (fun x => should_mask x = false) anc ->
    should_mask a = true ->
    In d (descendants a) ->
    ~ In (oid d) (map oid (elements (masked (mrun t)))).
Proof.
  induction t as [o nm at_ hd cs IH] using Tag_induction.
  rewrite Forall_forall in IH. intros anc a d N H Hanc Ha Hd.
  set (t := mkTag o nm at_ hd cs) in *.
  assert (Hdt : In d (descendants t)).
  { apply descendants_trans with a; auto. eapply ancestry_elements; eauto. }
  assert (Hroot : oid d <> oid t).
  { rewrite elements_eq in N. cbn [map] in N. apply NoDup_cons_iff in N.
    intros E. apply (proj1 N). rewrite <- E. now apply in_map. }
  rewrite masked_elements. cbn [map]. rewrite mask_keeps_oid.
  intros [E|Hin]; [now apply Hroot|].
  apply in_ancestry in H. cbn [contents t] in H.
  destruct H as [[-> ->]|(c & anc0 & Hc & -> & H)].
  - rewrite Ha in Hin. destruct Hin.
  - inversion Hanc as [|? ? M Hanc0]; subst. rewrite M in Hin.
    cbn [contents t] in Hin.
    assert (Hdc : In d (elements c)).
    { apply elements_trans with a; [eapply ancestry_elements; eauto|].
      rewrite elements_eq. now right. }
    rewrite elements_eq in N. cbn [map] in N.
    apply NoDup_cons_iff in N. destruct N as [_ N'].
    unfold descendants in N'. rewrite flat_map_on_tag in N'. cbn [contents t] in N'.
    apply in_map_iff in Hin. destruct Hin as (z & Ez & Hz).
    apply in_flat_map in Hz. destruct Hz as (c2 & Hc2 & Hz).
    assert (Hz2 : In (oid d) (map oid (elements c2))).
    { apply (mask_oids_incl should_mask mask_fn c2). rewrite <- Ez. now apply in_map. }
    destruct (in_split _ _ Hc) as (l1 & l2 & Hsplit).
    rewrite Hsplit in Hc2, N'.
    apply in_app_or in Hc2. destruct Hc2 as [Hc2|[<-|Hc2]].
    + revert Hz2. eapply sibling_oids_disjoint; eauto using in_map.
    + apply (IH c Hc anc0 a d); auto.
      * eapply NoDup_child_oids with (F := elements) (l := l1 ++ c :: l2); eauto.
        apply in_or_app. right. now left.
      * rewrite <- Ez. now apply in_map.
    + revert Hz2. eapply sibling_oids_disjoint; eauto using in_map.
Qed.
End MaskerGuarantees.

(** On the path to a matching element there is a topmost match. *)
Lemma topmost_match (should_mask : Tag -> bool) (t : Tag) :
  forall anc x,
    In (anc, x) (ancestry t) ->
    should_mask x = true ->
    exists anc1 a rest,
      (anc ++ [x] = anc1 ++ a :: rest)
      /\ In (anc1, a) (ancestry t)
      /\ Forall (fun y => should_mask y = false) anc1
      /\ should_mask a = true
      /\ In x (elements a).
Proof.
  induction t as [o nm at_ hd cs IH] using Tag_induction.
  rewrite Forall_forall in IH. intros anc x H Hx.
  set (t := mkTag o nm at_ hd cs) in *.
  destruct (should_mask t) eqn:M.
  - exists [], t.
    assert (Hel : In x (elements t)) by (eapply ancestry_elements; eauto).
    assert (Hroot : In ([], t) (ancestry t)) by (apply in_ancestry; now left).
    apply in_ancestry in H.
    destruct H as [[-> ->]|(c & anc0 & _ & -> & _)].
    + exists []. auto.
    + exists (anc0 ++ [x]). auto.
  - apply in_ancestry in H.
    destruct H as [[-> ->]|(c & anc0 & Hc & -> & H)]; [congruence|].
    destruct (IH c Hc anc0 x H Hx) as (anc1 & a & rest & E & H1 & H2 & H3 & H4).
    exists (t :: anc1), a, rest. repeat split; auto.
    + simpl. now rewrite E.
    + apply in_ancestry. right. eauto.
Qed.

(** C5, as stated, fails: a [maskText] may return the empty string, and
    the [div] it is applied to then carries an empty annotation. *)
Lemma mask_guarantee_fails :
  ~ mask_guarantee
      (masked (_mask_elements (is_named "div") (Some (fun _ => EmptyString))
                 (scenario_soup 0 1 2 3 4 5))).
Proof.
  intros G.
  destruct (G (mkTag 3 "div" [("id", AStr "a"); ("el-mask", AStr EmptyString)] false [])
              (AStr EmptyString)) as (_ & s & Hs & Hne).
  - vm_compute. auto 10.
  - reflexivity.
  - inversion Hs. congruence.
Qed.

(** C5, amended: for a tree none of whose elements carries an [el-mask]
    attribute beforehand, and every [shouldMask]/[maskText] pair, after the
    Subtree Masker has run every element that carries a mask annotation has
    zero element children, is an object [shouldMask] held of, and its
    annotation is the string [maskText] returned for that object as it was
    before masking; the annotation is a non-empty string exactly when that
    string is non-empty. *)
Theorem mask_annotation_guarantee (should_mask : Tag -> bool)
    (mask_fn : Tag -> string) (t : Tag) :
  (forall e, In e (elements t) -> dict_get "el-mask" (attrs e) = None) ->
  forall e v,
    In e (elements (masked (_mask_elements should_mask (Some mask_fn) t))) ->
    dict_get "el-mask" (attrs e) = Some v ->
    tags (contents e) = []
    /\ exists e0, In e0 (elements t) /\ oid e0 = oid e
                  /\ should_mask e0 = true /\ v = AStr (mask_fn e0)
                  /\ ((exists s, v = AStr s /\ s <> EmptyString)
                      <-> mask_fn e0 <> EmptyString).
Proof.
  intros Hno e v He Hv.
  destruct (masked_annotation should_mask mask_fn t Hno e v He Hv)
    as (Hleaf & e0 & H0 & Ho & Hm & ->).
  split; [exact Hleaf|]. exists e0. repeat split; auto.
  - intros (s & Hs & Hne). injection Hs as <-. exact Hne.
  - intros Hne. exists (mask_fn e0). auto.
Qed.

Lemma mask_annotation_guarantee_witness :
  let e := mkTag 3 "div" [("id", AStr "a"); ("el-mask", AStr "m")] false [] in
  tags (contents e) = []
  /\ exists e0, In e0 (elements (scenario_soup 0 1 2 3 4 5)) /\ oid e0 = oid e
                /\ is_named "div" e0 = true /\ AStr "m" = AStr ((fun _ => "m") e0)
                /\ ((exists s, AStr "m" = AStr s /\ s <> EmptyString)
                    <-> (fun _ : Tag => "m") e0 <> EmptyString).
Proof.
  apply (mask_annotation_guarantee (is_named "div") (fun _ => "m")
           (scenario_soup 0 1 2 3 4 5)).
  - intros e He. vm_compute in He.
    repeat (destruct He as [<-|He]; [reflexivity|]). destruct He.
  - vm_compute. auto 10.
  - reflexivity.
Defined.

(** C6: let an element [x] and a strict descendant [d] of it both be in the
    tree, [shouldMask] holding of [x] (and possibly of [d]), all objects
    distinct. Then on the path to [x] there is a topmost match [a]; after
    masking [a] is still in its place, below the same ancestors, whose
    attributes the masker left alone, and it carries the annotation
    [maskText a] and has no element child; [d] is no longer in the tree,
    and the masker was never invoked on it. *)
Theorem mask_topmost_only (should_mask : Tag -> bool) (mask_fn : Tag -> string)
    (t : Tag) (anc : list Tag) (x d : Tag) :
  NoDup (map oid (elements t)) ->
  In (anc, x) (ancestry t) ->
  should_mask x = true ->
  In d (descendants x) ->
  let r := _mask_elements should_mask (Some mask_fn) t in
  exists anc1 a rest,
    anc ++ [x] = anc1 ++ a :: rest
    /\ Forall (fun y => should_mask y = false) anc1
    /\ should_mask a = true
    /\ (exists anc' a',
          In (anc', a') (ancestry (masked r))
          /\ Forall2 same_head anc1 anc'
          /\ oid a' = oid a /\ name a' = name a
          /\ dict_get "el-mask" (attrs a') = Some (AStr (mask_fn a))
          /\ tags (contents a') = [])
    /\ ~ In (oid d) (map oid (elements (masked r)))
    /\ ~ In (oid d) (map oid (mask_visited r)).
Proof.
  intros N H Hx Hd r.
  destruct (topmost_match should_mask t anc x H Hx)
    as (anc1 & a & rest & E & H1 & H2 & H3 & H4).
  assert (Hda : In d (descendants a)) by (eapply descendants_trans; eauto).
  assert (Hgone : ~ In (oid d) (map oid (elements (masked r))))
    by (eapply mask_topmost_clears; eauto).
  exists anc1, a, rest. repeat split; auto.
  - eapply mask_topmost_present; eauto.
  - unfold r. now rewrite mask_visited_oids.
Qed.

Lemma mask_topmost_only_witness :
  let should_mask := fun y => is_named "div" y || is_named "span" y in
  let mask_fn := fun y => name y in
  let t := scenario_soup 0 1 2 3 4 5 in
  let anc := fst (nth 3 (ancestry t) ([], t)) in
  let x := scenario_div 3 4 in
  let d := mkTag 4 "span" [] false [EText KString "x"] in
  let r := _mask_elements should_mask (Some mask_fn) t in
  exists anc1 a rest,
    anc ++ [x] = anc1 ++ a :: rest
    /\ Forall (fun y => should_mask y = false) anc1
    /\ should_mask a = true
    /\ (exists anc' a',
          In (anc', a') (ancestry (masked r))
          /\ Forall2 same_head anc1 anc'
          /\ oid a' = oid a /\ name a' = name a
          /\ dict_get "el-mask" (attrs a') = Some (AStr (mask_fn a))
          /\ tags (contents a') = [])
    /\ ~ In (oid d) (map oid (elements (masked r)))
    /\ ~ In (oid d) (map oid (mask_visited r)).
Proof.
  intros should_mask mask_fn t anc x d.
  apply (mask_topmost_only should_mask mask_fn t anc x d).
  - vm_compute. repeat (constructor; [simpl; intuition discriminate|]). constructor.
  - vm_compute. auto 10.
  - reflexivity.
  - vm_compute. auto.
Defined.

(** ** Flattener *)

Section FlattenerSpec.
Variable str_dict : attrs_t -> string.

Lemma all_hovers_app (l1 l2 : list Tag) :
  all_hovers str_dict (l1 ++ l2)
  = match all_hovers str_dict l1, all_hovers str_dict l2 with
    | Some a, Some b => Some (a ++ b)
    | _, _ => None
    end.
Proof.
  induction l1 as [|e l1 IH]; simpl.
  - now destruct (all_hovers str_dict l2).
  - rewrite IH.
    destruct (add_line_breaks_value (hover_source str_dict e)); auto.
    destruct (all_hovers str_dict l1); auto.
    destruct (all_hovers str_dict l2); auto.
Qed.

Lemma emit_nil (td : tree_data) : emit str_dict [] [] td = Some td.
Proof. destruct td. unfold emit. simpl. now rewrite !app_nil_r. Qed.

Lemma emit_app (e1 e2 : list Tag) (r1 r2 : list (string * string)) (td : tree_data) :
  emit str_dict (e1 ++ e2) (r1 ++ r2) td
  = match emit str_dict e1 r1 td with
    | Some td' => emit str_dict e2 r2 td'
    | None => None
    end.
Proof.
  unfold emit. rewrite all_hovers_app.
  destruct (all_hovers str_dict e1) as [h1|]; auto.
  destruct (all_hovers str_dict e2) as [h2|]; auto.
  cbn [ids labels parents hover_text].
  now rewrite !map_app, !app_assoc.
Qed.

Lemma emit_single (t : Tag) (pid : string) (td : tree_data) :
  emit str_dict [t] [(node_id t, pid)] td
  = match add_line_breaks_value (hover_source str_dict t) with
    | Some hover =>
        Some (mkData (ids td ++ [node_id t]) (labels td ++ [name t])
                     (parents td ++ [pid]) (hover_text td ++ [hover]))
    | None => None
    end.
Proof.
  unfold emit. cbn [all_hovers].
  now destruct (add_line_breaks_value (hover_source str_dict t)).
Qed.

Local Abbreviation shown f :=
  (on_tag (fun x => if String.eqb (name x) EmptyString then [] else f x)).

Lemma traverse_loop_spec (nid : string) (cs : list (PageElement Tag)) :
  Forall (fun c => forall pid td,
            traverse str_dict c pid td
            = emit str_dict (preorder c) (records pid c) td) (tags cs) ->
  forall td,
    traverse_loop (fun child => traverse str_dict child nid) cs td
    = emit str_dict (flat_map (shown preorder) cs)
                    (flat_map (shown (records nid)) cs) td.
Proof.
  induction cs as [|[c|k s] cs IH]; cbn [tags]; intros F td.
  - apply eq_sym, emit_nil.
  - inversion F as [|? ? Hc Hcs]; subst.
    cbn [traverse_loop flat_map on_tag].
    destruct (String.eqb (name c) EmptyString).
    + now apply IH.
    + rewrite emit_app, Hc.
      destruct (emit str_dict (preorder c) (records nid c) td); auto.
  - cbn [traverse_loop flat_map on_tag]. now apply IH.
Qed.

(** [traverse] appends the records of the pre-order listing, or raises. *)
Lemma traverse_spec (t : Tag) :
  forall pid td,
    traverse str_dict t pid td = emit str_dict (preorder t) (records pid t) td.
Proof.
  induction t as [o nm at_ hd cs IH] using Tag_induction. intros pid td.
  cbn [traverse preorder records].
  set (t := mkTag o nm at_ hd cs).
  change (t :: flat_map (shown preorder) cs)
    with ([t] ++ flat_map (shown preorder) cs).
  change ((node_id t, pid) :: flat_map (shown (records (node_id t))) cs)
    with ([(node_id t, pid)] ++ flat_map (shown (records (node_id t))) cs).
  rewrite emit_app, emit_single.
  destruct (add_line_breaks_value (hover_source str_dict t)); [|reflexivity].
  now rewrite (traverse_loop_spec _ _ IH).
Qed.
End FlattenerSpec.

(** *** Chart ids *)

Lemma has_char_app (c : ascii) (s1 s2 : string) :
  has_char c (s1 ++ s2)%string = has_char c s1 || has_char c s2.
Proof.
  induction s1 as [|a s1 IH]; simpl; auto. now rewrite IH, orb_assoc.
Qed.

Lemma digits_no_underscore (d : Decimal.uint) :
  has_char "_" (NilEmpty.string_of_uint d) = false.
Proof. induction d; simpl; auto. Qed.

Lemma decimal_no_underscore (n : N) : has_char "_" (decimal n) = false.
Proof.
  unfold decimal, NilZero.string_of_uint.
  destruct (N.to_uint n); auto; apply (digits_no_underscore (_ _)).
Qed.

Lemma to_uint_nonnil (n : N) : N.to_uint n <> Decimal.Nil.
Proof.
  intros E. pose proof (DecimalN.Unsigned.of_to n) as H. rewrite E in H.
  subst n. discriminate E.
Qed.

Lemma decimal_inj (n m : N) : decimal n = decimal m -> n = m.
Proof.
  unfold decimal. intros E.
  apply DecimalN.Unsigned.to_uint_inj.
  apply (f_equal NilZero.uint_of_string) in E.
  rewrite !NilZero.usu in E by apply to_uint_nonnil. congruence.
Qed.

(** The text after the last underscore of an id is the object identity. *)
Lemma split_last_underscore (s1 s2 d1 d2 : string) :
  (s1 ++ "_" ++ d1 = s2 ++ "_" ++ d2)%string ->
  has_char "_" d1 = false -> has_char "_" d2 = false ->
  d1 = d2.
Proof.
  revert s2. induction s1 as [|a s1 IH]; intros [|b s2] E H1 H2; simpl in E.
  - congruence.
  - injection E as _ E. rewrite E, has_char_app in H1. simpl in H1.
    now rewrite orb_true_r in H1.
  - injection E as _ E. rewrite <- E, has_char_app in H2. simpl in H2.
    now rewrite orb_true_r in H2.
  - injection E as _ E. eauto.
Qed.

Lemma node_id_inj (a b : Tag) : node_id a = node_id b -> oid a = oid b.
Proof.
  unfold node_id. intros E. apply decimal_inj.
  eapply split_last_underscore; eauto using decimal_no_underscore.
Qed.

Lemma node_id_nonempty (a : Tag) : node_id a <> EmptyString.
Proof. unfold node_id. destruct (name a); discriminate. Qed.

Lemma NoDup_node_ids (l : list Tag) :
  NoDup (map oid l) -> NoDup (map node_id l).
Proof.
  induction l as [|a l IH]; simpl; intros N; [constructor|].
  apply NoDup_cons_iff in N. destruct N as [Ha N]. constructor; auto.
  intros H. apply Ha. apply in_map_iff in H. destruct H as (b & E & Hb).
  apply node_id_inj in E. rewrite <- E. now apply in_map.
Qed.

(** *** The pre-order listing *)

Local Abbreviation shown f :=
  (on_tag (fun x => if String.eqb (name x) EmptyString then [] else f x)).

Lemma preorder_incl (t : Tag) : incl (preorder t) (elements t).
Proof.
  induction t as [o nm at_ hd cs IH] using Tag_induction.
  rewrite Forall_forall in IH.
  intros e [<-|He]; [apply elements_self|].
  rewrite elements_eq. right.
  apply in_flat_map in He. destruct He as ([c|k s] & Hc & He); [|destruct He].
  cbn [on_tag] in He. destruct (String.eqb (name c) EmptyString); [destruct He|].
  apply in_tags in Hc. apply in_descendants. exists c. split; auto.
  now apply IH.
Qed.

Lemma preorder_distinct (t : Tag) :
  NoDup (map oid (elements t)) -> NoDup (map oid (preorder t)).
Proof.
  induction t as [o nm at_ hd cs IH] using Tag_induction.
  rewrite elements_eq. unfold descendants. cbn [preorder contents map].
  rewrite !NoDup_cons_iff. intros [Hroot N]. split.
  - intros H. apply Hroot.
    apply in_map_iff in H. destruct H as (e & E & He). rewrite <- E.
    apply in_map.
    apply in_flat_map in He. destruct He as ([c|k s] & Hc & He); [|destruct He].
    cbn [on_tag] in He.
    destruct (String.eqb (name c) EmptyString); [destruct He|].
    apply in_flat_map. exists (ETag c). split; auto.
    cbn [on_tag]. now apply preorder_incl.
  - clear Hroot. induction cs as [|[c|k s] cs IHcs]; cbn [flat_map on_tag] in *.
    + constructor.
    + cbn [tags] in IH. inversion IH as [|? ? Hc Hcs]; subst.
      rewrite map_app in N.
      assert (Nrest : NoDup (map oid (flat_map (shown preorder) cs)))
        by (apply IHcs; eauto using NoDup_app_remove_l).
      destruct (String.eqb (name c) EmptyString); [exact Nrest|].
      rewrite map_app. apply NoDup_app; auto.
      * apply Hc. eauto using NoDup_app_remove_r.
      * intros y Hy Hy'. apply (NoDup_app_disjoint _ _ y N).
        -- apply in_map_iff in Hy. destruct Hy as (e & <- & He).
           now apply in_map, preorder_incl.
        -- apply in_map_iff in Hy'. destruct Hy' as (e & <- & He).
           apply in_map.
           apply in_flat_map in He. destruct He as ([c'|k s] & Hc' & He); [|destruct He].
           cbn [on_tag] in He.
           destruct (String.eqb (name c') EmptyString); [destruct He|].
           apply in_flat_map. exists (ETag c'). split; auto.
           cbn [on_tag]. now apply preorder_incl.
    + apply IHcs; auto.
Qed.

Lemma records_ids (t : Tag) :
  forall pid, map fst (records pid t) = map node_id (preorder t).
Proof.
  induction t as [o nm at_ hd cs IH] using Tag_induction. intros pid.
  cbn [records preorder map fst]. f_equal.
  set (nid := node_id (mkTag o nm at_ hd cs)). clearbody nid.
  induction cs as [|[c|k s] cs IHcs]; cbn [flat_map on_tag tags] in *; auto.
  inversion IH as [|? ? Hc Hcs]; subst.
  rewrite !map_app, IHcs by assumption. f_equal.
  destruct (String.eqb (name c) EmptyString); auto.
Qed.

(** *** Parents come first *)

Lemma precede_mono (recs : list (string * string)) :
  forall E E', incl E E' -> parents_precede E recs -> parents_precede E' recs.
Proof.
  induction recs as [|[i p] recs IH]; simpl; auto.
  intros E E' HI [Hp H]. split; auto.
  apply (IH (i :: E)); auto. intros y [<-|Hy]; [now left|right; auto].
Qed.

Lemma precede_app (l1 l2 : list (string * string)) :
  forall E, parents_precede E l1 -> parents_precede E l2 ->
            parents_precede E (l1 ++ l2).
Proof.
  induction l1 as [|[i p] l1 IH]; simpl; auto.
  intros E [Hp H1] H2. split; auto. apply IH; auto.
  apply (precede_mono l2 E); auto. intros y Hy. now right.
Qed.

Lemma records_precede (t : Tag) :
  forall pid E, In pid E -> parents_precede E (records pid t).
Proof.
  induction t as [o nm at_ hd cs IH] using Tag_induction. intros pid E Hpid.
  cbn [records parents_precede]. split; auto.
  set (nid := node_id (mkTag o nm at_ hd cs)).
  assert (Hn : In nid (nid :: E)) by now left.
  revert Hn. generalize (nid :: E) as E'. clearbody nid. intros E' Hn.
  induction cs as [|[c|k s] cs IHcs]; cbn [flat_map on_tag tags] in *; auto.
  - exact I.
  - inversion IH as [|? ? Hc Hcs]; subst. apply precede_app; auto.
    destruct (String.eqb (name c) EmptyString); [exact I|auto].
Qed.

Lemma children_precede (nid : string) (cs : list (PageElement Tag)) :
  forall E, In nid E ->
            parents_precede E (flat_map (shown (records nid)) cs).
Proof.
  induction cs as [|[c|k s] cs IH]; cbn [flat_map on_tag]; intros E Hn; auto.
  - exact I.
  - apply precede_app; auto.
    destruct (String.eqb (name c) EmptyString); [exact I|].
    now apply records_precede.
Qed.

Lemma precede_nth (recs : list (string * string)) :
  forall E i r,
    parents_precede E recs -> nth_error recs i = Some r ->
    In (snd r) E \/ exists j, j < i /\ nth_error (map fst recs) j = Some (snd r).
Proof.
  induction recs as [|[i0 p0] recs IH]; intros E i r H Hi.
  - destruct i; discriminate.
  - destruct H as [Hp H]. destruct i as [|i]; simpl in Hi.
    + injection Hi as <-. now left.
    + destruct (IH _ _ _ H Hi) as [[<-|Hin]|(j & Hj & Hnth)].
      * right. exists 0. split; [lia|reflexivity].
      * now left.
      * right. exists (S j). split; [lia|exact Hnth].
Qed.

(** *** The flattener's output *)

Lemma all_hovers_total (str_dict : attrs_t -> string) (l : list Tag) :
  (forall e l', In e l -> dict_get "el-mask" (attrs e) <> Some (AList l')) ->
  all_hovers str_dict l = Some (map (hover_of str_dict) l).
Proof.
  induction l as [|e l IH]; intros H; cbn [all_hovers map]; auto.
  rewrite IH by (intros e' l' He'; apply H; now right).
  assert (He : forall l', dict_get "el-mask" (attrs e) <> Some (AList l'))
    by (intros l'; apply H; now left).
  unfold hover_source, hover_of, dict_mem.
  destruct (dict_get "el-mask" (attrs e)) as [[text|l']|]; auto.
  now destruct (He l').
Qed.

Lemma plot_dom_treemap_total (str_dict : attrs_t -> string) (t : Tag) :
  mask_is_text t ->
  _plot_dom_treemap str_dict t
  = Some (mkData (map node_id (preorder t)) (map name (preorder t))
                 (map snd (records EmptyString t))
                 (map (hover_of str_dict) (preorder t))).
Proof.
  intros H. unfold _plot_dom_treemap. rewrite traverse_spec. unfold emit.
  rewrite all_hovers_total; auto.
  intros e l' He. apply H. now apply preorder_incl.
Qed.

(** C7: for every tree whose objects are pairwise distinct (and whose
    [el-mask] attributes, if any, hold strings), the Flattener returns the
    records of the pre-order listing; the ids are pairwise different; the
    first record, and no other, has the empty parent id; the parent id of
    every later record is the id of a record emitted strictly earlier. *)
Theorem flattener_preorder (str_dict : attrs_t -> string) (t : Tag) :
  NoDup (map oid (elements t)) ->
  mask_is_text t ->
  exists td,
    _plot_dom_treemap str_dict t = Some td
    /\ ids td = map node_id (preorder t)
    /\ labels td = map name (preorder t)
    /\ List.length (parents td) = List.length (ids td)
    /\ NoDup (ids td)
    /\ forall i p, nth_error (parents td) i = Some p ->
         (p = EmptyString <-> i = 0)
         /\ (i <> 0 -> exists j, j < i /\ nth_error (ids td) j = Some p).
Proof.
  intros N M. eexists. split; [apply plot_dom_treemap_total; exact M|].
  cbn [ids labels parents].
  split; [reflexivity|]. split; [reflexivity|].
  split; [rewrite <- records_ids with (pid := EmptyString); now rewrite !length_map|].
  split; [apply NoDup_node_ids, preorder_distinct, N|].
  intros i p Hi. rewrite nth_error_map in Hi.
  destruct (nth_error (records EmptyString t) i) as [r|] eqn:Hr; [|discriminate].
  injection Hi as <-.
  rewrite <- records_ids with (pid := EmptyString).
  destruct i as [|i].
  - destruct t as [o nm at_ hd cs]. cbn [records nth_error] in Hr.
    injection Hr as <-. cbn [snd]. split; [tauto|congruence].
  - assert (Hlater : exists j, j < S i
              /\ nth_error (map fst (records EmptyString t)) j = Some (snd r)).
    { destruct t as [o nm at_ hd cs]. cbn [records nth_error] in Hr.
      cbn [records map fst].
      set (t := mkTag o nm at_ hd cs) in *.
      set (rest := flat_map _ cs) in *.
      assert (P : parents_precede [node_id t] rest)
        by (apply children_precede; now left).
      destruct (@precede_nth rest [node_id t] i r P Hr) as [[E|[]]|(j & Hj & Hn)].
      - exists 0. split; [lia|]. cbn [nth_error]. now rewrite E.
      - exists (S j). split; [lia|exact Hn]. }
    split; [|intros _; exact Hlater].
    split; [|discriminate]. intros E.
    destruct Hlater as (j & _ & Hj). rewrite E, records_ids in Hj.
    rewrite nth_error_map in Hj.
    destruct (nth_error (preorder t) j) as [e|]; [|discriminate].
    injection Hj as Hj. now destruct (node_id_nonempty e).
Qed.

Lemma flattener_preorder_witness :
  let t := scenario_soup 0 1 2 3 4 5 in
  exists td,
    _plot_dom_treemap (fun _ => "{}") t = Some td
    /\ ids td = map node_id (preorder t)
    /\ labels td = map name (preorder t)
    /\ List.length (parents td) = List.length (ids td)
    /\ NoDup (ids td)
    /\ forall i p, nth_error (parents td) i = Some p ->
         (p = EmptyString <-> i = 0)
         /\ (i <> 0 -> exists j, j < i /\ nth_error (ids td) j = Some p).
Proof.
  apply (flattener_preorder (fun _ => "{}") (scenario_soup 0 1 2 3 4 5)).
  - vm_compute. repeat (constructor; [simpl; intuition discriminate|]). constructor.
  - intros e l He. vm_compute in He.
    repeat (destruct He as [<-|He]; [discriminate|]). destruct He.
Defined.

(** C10: the Flattener looks at nothing but the key [el-mask] of an
    element's attributes. For every tree (whose [el-mask] attributes hold
    strings) it returns, and the record of each element reached has that
    element's id and, as hover text, the wrapped value of [el-mask] when
    the key is present, also when it came with the input and no masker
    ever ran, and the wrapped [str] of the attributes when it is absent. *)
Theorem hover_text_from_el_mask (str_dict : attrs_t -> string) (t : Tag) :
  mask_is_text t ->
  exists td,
    _plot_dom_treemap str_dict t = Some td
    /\ forall i e, nth_error (preorder t) i = Some e ->
         nth_error (ids td) i = Some (node_id e)
         /\ (forall text, dict_get "el-mask" (attrs e) = Some (AStr text) ->
               dict_mem "el-mask" (attrs e) = true
               /\ nth_error (hover_text td) i
                  = Some (_add_line_breaks text default_char_limit))
         /\ (dict_mem "el-mask" (attrs e) = false ->
               nth_error (hover_text td) i
               = Some (_add_line_breaks (str_dict (attrs e)) default_char_limit)).
Proof.
  intros M. eexists. split; [apply plot_dom_treemap_total; exact M|].
  cbn [ids hover_text]. intros i e Hi.
  rewrite !nth_error_map, Hi. cbn [option_map]. unfold hover_of, dict_mem.
  split; [reflexivity|]. split.
  - intros text ->. auto.
  - destruct (dict_get "el-mask" (attrs e)); [discriminate|reflexivity].
Qed.

Lemma hover_text_from_el_mask_witness :
  let t := mkTag 0 "[document]" [] true
             [ETag (mkTag 1 "div" [("el-mask", AStr "from the input")] false
                      [ETag (mkTag 2 "span" [] false [])])] in
  exists td,
    _plot_dom_treemap (fun _ => "{}") t = Some td
    /\ forall i e, nth_error (preorder t) i = Some e ->
         nth_error (ids td) i = Some (node_id e)
         /\ (forall text, dict_get "el-mask" (attrs e) = Some (AStr text) ->
               dict_mem "el-mask" (attrs e) = true
               /\ nth_error (hover_text td) i
                  = Some (_add_line_breaks text default_char_limit))
         /\ (dict_mem "el-mask" (attrs e) = false ->
               nth_error (hover_text td) i
               = Some (_add_line_breaks ((fun _ => "{}") (attrs e)) default_char_limit)).
Proof.
  intros t. apply (hover_text_from_el_mask (fun _ => "{}") t).
  intros e l He. vm_compute in He.
  repeat (destruct He as [<-|He]; [discriminate|]). destruct He.
Defined.

(** ** The scenario of the specification *)

(** C8, as stated, fails: flattening the masked scenario document gives
    five records, not three. The root object [[document]] comes first, and
    [p] is still there, since masking [div] removes nothing but the
    children of [div]. *)
Lemma scenario_not_three_records :
  ~ exists td,
      html_dom_visualize (fun _ => "{}") (fun _ => "[]")
        (scenario_soup 0 1 2 3 4 5) None (Some (is_named "div")) None = Some td
      /\ labels td = ["html"; "body"; "div"].
Proof. intros (td & H & L). vm_compute in H. injection H as <-. discriminate L. Qed.

(** C8, amended: for the scenario document, masking without prior
    filtering, with [shouldMask] true of [div] only and the default
    [maskText], gives the [div] the annotation
    [<div id="a"><span>x</span></div>] and leaves it no child; flattening
    the masked tree yields 5 records, [[document]], [html], [body], [div]
    and [p], each below the one it is a child of, and the hover text of
    [div] is that annotation wrapped at 120 characters, which is the
    annotation itself. *)
Theorem scenario_masked_records (str_dict : attrs_t -> string)
    (str_list : list string -> string) (o0 o1 o2 o3 o4 o5 : N) :
  let soup := scenario_soup o0 o1 o2 o3 o4 o5 in
  let div' := mkTag o3 "div" [("id", AStr "a"); ("el-mask", AStr scenario_markup)]
                false [] in
  default_mask_fn str_list (scenario_div o3 o4) = scenario_markup
  /\ masked (_mask_elements (is_named "div") (Some (default_mask_fn str_list)) soup)
     = mkTag o0 "[document]" [] true
         [ETag (mkTag o1 "html" [] false
           [ETag (mkTag o2 "body" [] false
              [ETag div'; ETag (mkTag o5 "p" [] false [EText KString "y"])])])]
  /\ exists td,
       html_dom_visualize str_dict str_list soup None (Some (is_named "div")) None
       = Some td
       /\ labels td = ["[document]"; "html"; "body"; "div"; "p"]
       /\ (exists i0 i1 i2 i3 i4,
             ids td = [i0; i1; i2; i3; i4]
             /\ parents td = [EmptyString; i0; i1; i2; i2]
             /\ i3 = node_id div')
       /\ nth_error (hover_text td) 3
          = Some (_add_line_breaks scenario_markup default_char_limit)
       /\ _add_line_breaks scenario_markup default_char_limit = scenario_markup.
Proof.
  intros soup div'. split; [reflexivity|]. split; [reflexivity|].
  eexists. split; [reflexivity|]. split; [reflexivity|].
  split; [|split; reflexivity].
  do 5 eexists. split; [reflexivity|]. split; reflexivity.
Qed.

(** ** Text wrapper *)

Lemma append_nil_r (s : string) : (s ++ EmptyString)%string = s.
Proof. induction s as [|c s IH]; simpl; congruence. Qed.

Lemma append_assoc (s1 s2 s3 : string) :
  ((s1 ++ s2) ++ s3 = s1 ++ (s2 ++ s3))%string.
Proof. induction s1 as [|c s1 IH]; simpl; congruence. Qed.

Lemma len_append (s1 s2 : string) : len (s1 ++ s2) = (len s1 + len s2)%Z.
Proof.
  unfold len. induction s1 as [|c s1 IH]; simpl String.length.
  - reflexivity.
  - rewrite !Nat2Z.inj_succ. lia.
Qed.

Lemma len_nonneg (s : string) : (0 <= len s)%Z.
Proof. unfold len. lia. Qed.

Lemma no_space_append (s1 s2 : string) :
  no_space (s1 ++ s2) = no_space s1 && no_space s2.
Proof.
  induction s1 as [|c s1 IH]; simpl; auto. now rewrite IH, andb_assoc.
Qed.

(** *** [split] and [join] *)

Lemma split_from_words (text : string) :
  forall word, no_space word = true -> Forall is_word (split_from word text).
Proof.
  induction text as [|c text IH]; intros word Hw; simpl.
  - destruct word; constructor; [split; [discriminate|exact Hw]|constructor].
  - destruct (isspace c) eqn:Hc.
    + destruct word; [now apply IH|].
      constructor; [split; [discriminate|exact Hw]|now apply IH].
    + apply IH. rewrite no_space_append, Hw. simpl. now rewrite Hc.
Qed.

Lemma split_words (text : string) : Forall is_word (split text).
Proof. now apply split_from_words. Qed.

Lemma split_from_append (w : string) :
  forall word text,
    no_space w = true ->
    split_from word (w ++ text) = split_from (word ++ w) text.
Proof.
  induction w as [|c w IH]; intros word text Hw; simpl.
  - now rewrite append_nil_r.
  - simpl in Hw. apply andb_true_iff in Hw. destruct Hw as [Hc Hw].
    apply negb_true_iff in Hc. rewrite Hc, IH by assumption.
    now rewrite append_assoc.
Qed.

Lemma split_join (ws : list string) :
  Forall is_word ws -> split (String.concat " " ws) = ws.
Proof.
  unfold split. induction ws as [|w ws IH]; intros H; [reflexivity|].
  inversion H as [|? ? [Hne Hw] Hws]; subst.
  destruct ws as [|w2 ws]; cbn [String.concat].
  - rewrite <- (append_nil_r w) at 1. rewrite split_from_append by assumption.
    simpl. destruct w; [congruence|reflexivity].
  - rewrite split_from_append by assumption. simpl.
    destruct w; [congruence|]. f_equal. now apply IH.
Qed.

(** *** A text that fits on one line *)

Lemma packed_length_app (l1 l2 : list string) :
  packed_length (l1 ++ l2) = (packed_length l1 + packed_length l2)%Z.
Proof. induction l1 as [|w l1 IH]; simpl; lia. Qed.

Lemma packed_length_nonneg (l : list string) : (0 <= packed_length l)%Z.
Proof. induction l as [|w l IH]; simpl; [lia|]. pose proof (len_nonneg w). lia. Qed.

Lemma len_join (ws : list string) :
  ws <> [] -> len (String.concat " " ws) = (packed_length ws - 1)%Z.
Proof.
  induction ws as [|w ws IH]; intros H; [congruence|].
  destruct ws as [|w2 ws].
  - simpl. lia.
  - cbn [String.concat packed_length] in *. rewrite !len_append, IH by discriminate.
    change (len " ") with 1%Z. lia.
Qed.

(** As long as the joined words fit, the loop only extends the first line. *)
Lemma wrap_fits (char_limit : Z) (ws : list string) :
  forall pre,
    (len (String.concat " " (pre ++ ws)) <= char_limit)%Z ->
    fold_left (wrap_step char_limit) ws (mkWrap [] pre (packed_length pre))
    = mkWrap [] (pre ++ ws) (packed_length (pre ++ ws)).
Proof.
  induction ws as [|w ws IH]; intros pre H; simpl.
  - now rewrite app_nil_r.
  - unfold wrap_step at 2. cbn [current_length current_line result].
    assert (E : (pre ++ w :: ws = (pre ++ [w]) ++ ws)) by now rewrite <- app_assoc.
    rewrite len_join in H by (destruct pre; discriminate).
    rewrite E, packed_length_app, packed_length_app in H. simpl in H.
    pose proof (packed_length_nonneg ws).
    destruct (Z.gtb_spec (packed_length pre + len w) char_limit) as [G|G]; [lia|].
    rewrite E.
    replace (packed_length pre + len w + 1)%Z with (packed_length (pre ++ [w]))
      by (rewrite packed_length_app; simpl; lia).
    apply IH. rewrite len_join by (destruct pre; discriminate).
    rewrite !packed_length_app. simpl. lia.
Qed.

Lemma wrap_one_line (text : string) (char_limit : Z) :
  (len (String.concat " " (split text)) <= char_limit)%Z ->
  _add_line_breaks text char_limit = String.concat " " (split text).
Proof.
  intros H. unfold _add_line_breaks, wrap_result.
  change (mkWrap [] [] 0%Z) with (mkWrap [] [] (packed_length [])).
  rewrite wrap_fits by exact H. cbn [current_line result app].
  destruct (split text); reflexivity.
Qed.

(** C2, the code at the failing input: with [limit = 3] the text
    [a b c dd] is wrapped into the lines [a b] and [c dd]. The second line
    holds two words and 4 characters, one more than the limit: after a
    break [current_length] restarts at [len(word)], without the 1 the other
    branch adds for the space, so the later lines are measured one short.
    The same two words at the start of a text are broken apart. *)
Theorem wrap_second_line_too_long :
  wrap_result "a b c dd" 3 = ["a b<br />"; "c dd"]
  /\ _add_line_breaks "a b c dd" 3 = "a b<br /> c dd"
  /\ split "c dd" = ["c"; "dd"]
  /\ (len "c dd" > 3)%Z
  /\ wrap_result "c dd" 3 = ["c<br />"; "dd"].
Proof. repeat split. Qed.

(** C3, as stated, fails: wrapping [a b c d] at 3 gives [a b<br /> c d],
    and wrapping that again splits the marker into words and breaks
    around them. *)
Lemma wrap_not_idempotent :
  _add_line_breaks (_add_line_breaks "a b c d" 3) 3 <> _add_line_breaks "a b c d" 3.
Proof. vm_compute. discriminate. Qed.

(** C3, amended: [wrap] is deterministic, and whenever the words of the
    text, joined by single spaces, take at most [limit] characters, no
    marker is inserted, [wrap] returns the joined words, and wrapping its
    result again gives the same string. *)
Theorem wrap_idempotent_on_one_line (text : string) (char_limit : Z) :
  (len (String.concat " " (split text)) <= char_limit)%Z ->
  (forall text' limit', text' = text -> limit' = char_limit ->
     _add_line_breaks text' limit' = _add_line_breaks text char_limit)
  /\ _add_line_breaks text char_limit = String.concat " " (split text)
  /\ _add_line_breaks (_add_line_breaks text char_limit) char_limit
     = _add_line_breaks text char_limit.
Proof.
  intros H. split; [now intros ? ? -> ->|].
  pose proof (wrap_one_line text char_limit H) as E. split; [exact E|].
  rewrite E.
  assert (S : split (String.concat " " (split text)) = split text)
    by apply split_join, split_words.
  rewrite wrap_one_line; rewrite S; auto.
Qed.

Lemma wrap_idempotent_on_one_line_witness :
  (forall text' limit', text' = "  a b   c " -> limit' = 5%Z ->
     _add_line_breaks text' limit' = _add_line_breaks "  a b   c " 5)
  /\ _add_line_breaks "  a b   c " 5 = String.concat " " (split "  a b   c ")
  /\ _add_line_breaks (_add_line_breaks "  a b   c " 5) 5
     = _add_line_breaks "  a b   c " 5.
Proof.
  apply (wrap_idempotent_on_one_line "  a b   c " 5).
  vm_compute. discriminate.
Defined.

(** * Further properties of the code *)

(** ** Branch filter: what is reported, what stays, what is visited *)

Lemma existsb_flat_map {A B : Type} (f : B -> bool) (g : A -> list B) (l : list A) :
  existsb f (flat_map g l) = existsb (fun x => existsb f (g x)) l.
Proof.
  induction l as [|a l IH]; simpl; auto. now rewrite existsb_app, IH.
Qed.

Lemma existsb_elements (keep : Tag -> bool) (t : Tag) :
  existsb keep (elements t)
  = keep t || existsb (fun c => existsb keep (elements c)) (tags (contents t)).
Proof.
  rewrite elements_eq. unfold descendants.
  now rewrite flat_map_on_tag, <- existsb_flat_map.
Qed.

Lemma filter_kept_spec (keep : Tag -> bool) (t : Tag) :
  kept (_filter_branches (Some keep) t) = existsb keep (elements t).
Proof.
  induction t as [o nm at_ hd cs IH] using Tag_induction.
  rewrite existsb_elements. cbn [contents].
  destruct (keep (mkTag o nm at_ hd cs)) eqn:K.
  - now rewrite filter_match.
  - rewrite filter_descend by assumption. cbn [kept orb].
    induction IH as [|c l Hc Hl IHl]; simpl; auto. now rewrite Hc, IHl.
Qed.

(** X1: the value [_filter_branches] returns for a node tells whether the
    predicate holds of the node or of an element below it. *)
Theorem filter_reports_match (keep : Tag -> bool) (t : Tag) :
  kept (_filter_branches (Some keep) t) = true
  <-> exists e, In e (elements t) /\ keep e = true.
Proof. rewrite filter_kept_spec. apply existsb_exists. Qed.

Lemma text_leaves_surviving (rec : Tag -> filter_run) (cs : list (PageElement Tag)) :
  text_leaves (surviving rec cs) = text_leaves cs.
Proof.
  induction cs as [|[c|k s] cs IH]; simpl; auto.
  - now destruct (kept (rec c)).
  - now rewrite IH.
Qed.

Lemma filter_root_head (keep : Tag -> bool) (t : Tag) :
  same_head t (tree (_filter_branches (Some keep) t))
  /\ hidden (tree (_filter_branches (Some keep) t)) = hidden t
  /\ text_leaves (contents (tree (_filter_branches (Some keep) t)))
     = text_leaves (contents t).
Proof.
  destruct t as [o nm at_ hd cs]. destruct (keep (mkTag o nm at_ hd cs)) eqn:K.
  - rewrite filter_match by assumption. now repeat split.
  - rewrite filter_descend by assumption. cbn [tree contents hidden].
    rewrite text_leaves_surviving. now repeat split.
Qed.

Lemma filter_elements_origin (keep : Tag -> bool) (t : Tag) :
  forall e', In e' (elements (tree (_filter_branches (Some keep) t))) ->
    exists e, In e (elements t) /\ same_head e e' /\ hidden e' = hidden e
              /\ text_leaves (contents e') = text_leaves (contents e).
Proof.
  induction t as [o nm at_ hd cs IH] using Tag_induction.
  rewrite Forall_forall in IH. intros e' He'.
  destruct (keep (mkTag o nm at_ hd cs)) eqn:K.
  - rewrite filter_match in He' by assumption. cbn [tree] in He'.
    exists e'. now repeat split.
  - pose proof (filter_root_head keep (mkTag o nm at_ hd cs)) as R.
    rewrite filter_descend in * by assumption. cbn [tree] in *.
    rewrite elements_eq in He'. destruct He' as [<-|He'].
    + exists (mkTag o nm at_ hd cs). split; [apply elements_self|exact R].
    + apply in_descendants in He'. cbn [contents] in He'.
      destruct He' as (c' & Hc' & He').
      apply in_tags_surviving in Hc'. destruct Hc' as (c & Hc & _ & ->).
      destruct (IH c Hc e' He') as (e & He & Hh).
      exists e. split; auto. rewrite elements_eq. right.
      apply in_descendants. eauto.
Qed.

(** X2: Branch Filter only removes. Every element of the filtered tree is
    an object of the input with the name, the attributes and the text
    leaves it had, and the root is among them whatever the run reports. *)
Theorem filter_only_removes (keep : Tag -> bool) (t : Tag) :
  let t' := tree (_filter_branches (Some keep) t) in
  same_head t t'
  /\ forall e', In e' (elements t') ->
       exists e, In e (elements t) /\ same_head e e' /\ hidden e' = hidden e
                 /\ text_leaves (contents e') = text_leaves (contents e).
Proof.
  split; [apply filter_root_head|apply filter_elements_origin].
Qed.

Lemma child_elements (t c e : Tag) :
  In c (tags (contents t)) -> In e (elements c) -> In e (elements t).
Proof.
  intros Hc He. rewrite elements_eq. right. apply in_descendants. eauto.
Qed.

(** The chain of an element holds elements of the tree, each above it. *)
Lemma ancestry_chain (t : Tag) :
  forall anc e a, In (anc, e) (ancestry t) -> In a anc ->
    In a (elements t) /\ In e (descendants a).
Proof.
  induction t as [o nm at_ hd cs IH] using Tag_induction.
  rewrite Forall_forall in IH. intros anc e a H Ha.
  apply in_ancestry in H. cbn [contents] in H.
  destruct H as [[-> _]|(c & anc0 & Hc & -> & H)]; [destruct Ha|].
  destruct Ha as [<-|Ha].
  - split; [apply elements_self|].
    apply in_descendants. exists c. split; auto.
    eapply ancestry_elements; eauto.
  - destruct (IH c Hc anc0 e a H Ha) as [H1 H2]. split; auto.
    eapply child_elements; eauto.
Qed.

Lemma existsb_elements_sub (keep : Tag -> bool) (t e : Tag) :
  In e (elements t) -> existsb keep (elements e) = true ->
  existsb keep (elements t) = true.
Proof.
  intros He H. apply existsb_exists in H. destruct H as (d & Hd & K).
  apply existsb_exists. exists d. split; auto. eapply elements_trans; eauto.
Qed.

(** A matching element stays as it is, with all that is below it. *)
Lemma filter_keeps_matches (keep : Tag -> bool) (t : Tag) :
  forall e, In e (elements t) -> keep e = true ->
    In e (elements (tree (_filter_branches (Some keep) t))).
Proof.
  induction t as [o nm at_ hd cs IH] using Tag_induction.
  rewrite Forall_forall in IH. intros e He K.
  destruct (keep (mkTag o nm at_ hd cs)) eqn:Kt.
  - now rewrite filter_match.
  - rewrite filter_descend by assumption. cbn [tree].
    rewrite elements_eq in He. destruct He as [<-|He]; [congruence|].
    apply in_descendants in He. cbn [contents] in He.
    destruct He as (c & Hc & He).
    apply child_elements with (tree (_filter_branches (Some keep) c)).
    + cbn [contents]. apply in_tags_surviving. exists c. repeat split; auto.
      rewrite filter_kept_spec. apply existsb_exists. eauto.
    + now apply IH.
Qed.

(** An element with a match at or below it stays, possibly with fewer
    children. *)
Lemma filter_keeps_above_match (keep : Tag -> bool) (t : Tag) :
  forall e, In e (elements t) -> existsb keep (elements e) = true ->
    exists e', In e' (elements (tree (_filter_branches (Some keep) t)))
               /\ same_head e e'.
Proof.
  induction t as [o nm at_ hd cs IH] using Tag_induction.
  rewrite Forall_forall in IH. intros e He K.
  destruct (keep (mkTag o nm at_ hd cs)) eqn:Kt.
  - rewrite filter_match by assumption. exists e. now repeat split.
  - pose proof (filter_root_head keep (mkTag o nm at_ hd cs)) as R.
    rewrite filter_descend in * by assumption. cbn [tree] in *.
    rewrite elements_eq in He. destruct He as [<-|He].
    + eexists. split; [apply elements_self|apply R].
    + apply in_descendants in He. cbn [contents] in He.
      destruct He as (c & Hc & He).
      destruct (IH c Hc e He K) as (e' & He' & Hh).
      exists e'. split; auto.
      apply child_elements with (tree (_filter_branches (Some keep) c)); auto.
      cbn [contents]. apply in_tags_surviving. exists c. repeat split; auto.
      rewrite filter_kept_spec. eapply existsb_elements_sub; eauto.
Qed.

(** X3: what the filter keeps. An element that satisfies [keep], or lies
    below one that does, is in the filtered tree exactly as it was; an
    element with a match below it is still there as the same object, with
    its name and attributes. With C1 as amended this tells which elements
    stay. *)
Theorem filter_keeps_related (keep : Tag -> bool) (t : Tag) (anc : list Tag) (e : Tag) :
  In (anc, e) (ancestry t) ->
  keep_related keep anc e ->
  let t' := tree (_filter_branches (Some keep) t) in
  (exists e', In e' (elements t') /\ same_head e e')
  /\ (keep e = true \/ (exists a, In a anc /\ keep a = true) -> In e (elements t')).
Proof.
  intros H R t'.
  assert (He : In e (elements t)) by (eapply ancestry_elements; eauto).
  assert (Hwhole : keep e = true \/ (exists a, In a anc /\ keep a = true) ->
                   In e (elements t')).
  { intros [K|(a & Ha & K)].
    - now apply filter_keeps_matches.
    - destruct (ancestry_chain t anc e a H Ha) as [Hat Hea].
      apply elements_trans with a; [now apply filter_keeps_matches|].
      rewrite elements_eq. now right. }
  split; auto.
  destruct R as [K|[(d & Hd & K)|R]].
  - exists e. split; [auto|now repeat split].
  - apply filter_keeps_above_match; auto.
    apply existsb_exists. exists d. split; auto. rewrite elements_eq. now right.
  - exists e. split; [auto|now repeat split].
Qed.

Lemma filter_keeps_related_witness :
  let keep := is_named "span" in
  let t := scenario_soup 0 1 2 3 4 5 in
  let p := nth 3 (ancestry t) ([], t) in
  let t' := tree (_filter_branches (Some keep) t) in
  (exists e', In e' (elements t') /\ same_head (snd p) e')
  /\ (keep (snd p) = true \/ (exists a, In a (fst p) /\ keep a = true) ->
      In (snd p) (elements t')).
Proof.
  intros keep t p.
  apply (filter_keeps_related keep t (fst p) (snd p)).
  - vm_compute. auto 10.
  - right; left. exists (mkTag 4 "span" [] false [EText KString "x"]).
    split; [vm_compute; auto|reflexivity].
Defined.

Lemma filter_no_match (keep : Tag -> bool) (t : Tag) :
  (forall e, In e (elements t) -> keep e = false) ->
  kept (_filter_branches (Some keep) t) = false.
Proof.
  intros H. rewrite filter_kept_spec.
  destruct (existsb keep (elements t)) eqn:E; auto.
  apply existsb_exists in E. destruct E as (e & He & Ke).
  rewrite (H e He) in Ke. discriminate.
Qed.

(** X4: when the predicate holds of no element, the filter empties the
    tree: the run reports [False] and the root is left without any element
    below it. *)
Theorem filter_without_match (keep : Tag -> bool) (t : Tag) :
  (forall e, In e (elements t) -> keep e = false) ->
  let r := _filter_branches (Some keep) t in
  kept r = false /\ elements (tree r) = [tree r].
Proof.
  intros H r.
  assert (K : kept r = false) by now apply filter_no_match.
  split; auto. rewrite elements_eq. f_equal.
  unfold descendants. rewrite flat_map_on_tag.
  unfold r in *. now rewrite (filter_dropped keep t K).
Qed.

Lemma filter_without_match_witness :
  let r := _filter_branches (Some (is_named "table")) (scenario_soup 0 1 2 3 4 5) in
  kept r = false /\ elements (tree r) = [tree r].
Proof.
  apply (filter_without_match (is_named "table") (scenario_soup 0 1 2 3 4 5)).
  intros e He. vm_compute in He.
  repeat (destruct He as [<-|He]; [reflexivity|]). destruct He.
Defined.

Lemma filter_flat_map {A B : Type} (P : B -> bool) (g : A -> list B) (l : list A) :
  filter P (flat_map g l) = flat_map (fun x => filter P (g x)) l.
Proof.
  induction l as [|a l IH]; simpl; auto. now rewrite filter_app, IH.
Qed.

Lemma map_flat_map {A B C : Type} (f : B -> C) (g : A -> list B) (l : list A) :
  map f (flat_map g l) = flat_map (fun x => map f (g x)) l.
Proof.
  induction l as [|a l IH]; simpl; auto. now rewrite map_app, IH.
Qed.

Lemma flat_map_ext_Forall {A B : Type} (f g : A -> list B) (l : list A) :
  Forall (fun x => f x = g x) l -> flat_map f l = flat_map g l.
Proof.
  induction 1 as [|a l Ha Hl IH]; simpl; auto. now rewrite Ha, IH.
Qed.

(** The elements of [t] none of whose proper ancestors in [t] satisfies
    [keep], in document order. *)
Lemma unshadowed_under (keep : Tag -> bool) (t : Tag) (l : list (list Tag * Tag)) :
  map snd (filter (fun p => unshadowed keep (fst p))
             (map (fun p => (t :: fst p, snd p)) l))
  = if keep t then []
    else map snd (filter (fun p => unshadowed keep (fst p)) l).
Proof.
  induction l as [|[anc e] l IH]; simpl.
  - now destruct (keep t).
  - destruct (keep t) eqn:K; simpl in *; auto.
    destruct (unshadowed keep anc); simpl; now rewrite IH.
Qed.

(** X5: which elements the filter tests. [_filter_branches] is invoked,
    once each and in document order, on exactly the elements none of whose
    proper ancestors satisfies the predicate; below a match nothing is
    tested. *)
Theorem filter_visits_unshadowed (keep : Tag -> bool) (t : Tag) :
  visited (_filter_branches (Some keep) t)
  = map snd (filter (fun p => unshadowed keep (fst p)) (ancestry t)).
Proof.
  induction t as [o nm at_ hd cs IH] using Tag_induction.
  cbn [ancestry filter unshadowed forallb fst map snd].
  rewrite unshadowed_under, flat_map_on_tag.
  destruct (keep (mkTag o nm at_ hd cs)) eqn:K.
  - now rewrite filter_match.
  - rewrite filter_descend by assumption. cbn [visited]. f_equal.
    rewrite filter_flat_map, map_flat_map.
    apply flat_map_ext_Forall. exact IH.
Qed.

(** ** Subtree masker: what it leaves alone *)

Lemma mask_descend_gen (should_mask : Tag -> bool) (mask_fn : option (Tag -> string))
    o nm at_ hd cs :
  should_mask (mkTag o nm at_ hd cs) = false \/ mask_fn = None ->
  _mask_elements should_mask mask_fn (mkTag o nm at_ hd cs)
  = mkMask (mkTag o nm at_ hd
              (map_tags (fun c => masked (_mask_elements should_mask mask_fn c)) cs))
           (mkTag o nm at_ hd cs
            :: flat_map (fun c => mask_visited (_mask_elements should_mask mask_fn c))
                 (tags cs)).
Proof.
  intros H. simpl. rewrite mask_loop_spec.
  destruct H as [-> | ->]; [reflexivity|].
  now destruct (should_mask _).
Qed.

Lemma map_tags_fixed (g : Tag -> Tag) (cs : list (PageElement Tag)) :
  Forall (fun c => g c = c) (tags cs) -> map_tags g cs = cs.
Proof.
  induction cs as [|[c|k s] cs IH]; simpl; intros H; auto.
  - inversion H as [|? ? Hc Hcs]; subst. rewrite Hc. f_equal. now apply IH.
  - f_equal. now apply IH.
Qed.

(** X6: the masker without effect. When no [mask_fn] is passed, or when
    [should_mask] holds of no element, [_mask_elements] changes nothing,
    and it is invoked on every element, in document order. *)
Theorem mask_without_match (should_mask : Tag -> bool)
    (mask_fn : option (Tag -> string)) (t : Tag) :
  mask_fn = None \/ (forall e, In e (elements t) -> should_mask e = false) ->
  _mask_elements should_mask mask_fn t = mkMask t (elements t).
Proof.
  induction t as [o nm at_ hd cs IH] using Tag_induction.
  rewrite Forall_forall in IH. intros H.
  set (t := mkTag o nm at_ hd cs) in *.
  assert (Hc : forall c, In c (tags cs) ->
             _mask_elements should_mask mask_fn c = mkMask c (elements c)).
  { intros c Hc. apply IH; auto. destruct H as [H|H]; [now left|right].
    intros e He. apply H. now apply child_elements with c. }
  unfold t. rewrite mask_descend_gen.
  - rewrite elements_eq. unfold descendants. rewrite flat_map_on_tag.
    cbn [contents]. f_equal.
    + f_equal. apply map_tags_fixed, Forall_forall.
      intros c Hin. now rewrite Hc.
    + f_equal. apply flat_map_ext_Forall, Forall_forall.
      intros c Hin. now rewrite Hc.
  - destruct H as [H|H]; [now right|left]. apply H, elements_self.
Qed.

Lemma mask_without_match_witness :
  _mask_elements (is_named "div") None (scenario_soup 0 1 2 3 4 5)
  = mkMask (scenario_soup 0 1 2 3 4 5) (elements (scenario_soup 0 1 2 3 4 5)).
Proof.
  apply (mask_without_match (is_named "div") None (scenario_soup 0 1 2 3 4 5)).
  left. reflexivity.
Defined.

Lemma dict_get_set_other (k k' : string) (v : attr_value) (d : attrs_t) :
  k' <> k -> dict_get k' (dict_set k v d) = dict_get k' d.
Proof.
  intros Hk. apply String.eqb_neq in Hk.
  induction d as [|[k0 v0] d IH]; simpl.
  - rewrite String.eqb_sym. now rewrite Hk.
  - destruct (String.eqb k0 k) eqn:E; simpl.
    + apply String.eqb_eq in E. subst k0.
      rewrite String.eqb_sym. now rewrite Hk.
    + now rewrite IH.
Qed.

Lemma text_leaves_decompose (cs : list (PageElement Tag)) :
  text_leaves (decompose_tags cs) = text_leaves cs.
Proof. induction cs as [|[c|k s] cs IH]; simpl; auto. now rewrite IH. Qed.

Lemma text_leaves_map_tags (g : Tag -> Tag) (cs : list (PageElement Tag)) :
  text_leaves (map_tags g cs) = text_leaves cs.
Proof. induction cs as [|[c|k s] cs IH]; simpl; auto. now rewrite IH. Qed.

Lemma mask_elements_origin (should_mask : Tag -> bool)
    (mask_fn : Tag -> string) (t : Tag) :
  forall e', In e' (elements (masked (_mask_elements should_mask (Some mask_fn) t))) ->
    exists e,
      In e (elements t)
      /\ oid e' = oid e /\ name e' = name e /\ hidden e' = hidden e
      /\ text_leaves (contents e') = text_leaves (contents e)
      /\ (should_mask e = false -> attrs e' = attrs e)
      /\ (should_mask e = true ->
            dict_get "el-mask" (attrs e') = Some (AStr (mask_fn e))
            /\ (forall k, k <> "el-mask" ->
                  dict_get k (attrs e') = dict_get k (attrs e))
            /\ tags (contents e') = []).
Proof.
  induction t as [o nm at_ hd cs IH] using Tag_induction.
  rewrite Forall_forall in IH. intros e' He'.
  rewrite masked_elements in He'. cbn [contents] in He'.
  set (t := mkTag o nm at_ hd cs) in *.
  destruct He' as [<-|He'].
  - exists t. split; [apply elements_self|].
    destruct (should_mask t) eqn:M; unfold t in *.
    + rewrite mask_match by assumption. cbn [masked oid name hidden contents attrs].
      rewrite text_leaves_decompose. repeat split; try congruence.
      * apply dict_get_set.
      * intros k Hk. now apply dict_get_set_other.
      * apply tags_decompose.
    + rewrite mask_descend by assumption. cbn [masked oid name hidden contents attrs].
      rewrite text_leaves_map_tags. repeat split; congruence.
  - destruct (should_mask t); [destruct He'|].
    apply in_flat_map in He'. destruct He' as (c & Hc & He').
    destruct (IH c Hc e' He') as (e & He & Hrest).
    exists e. split; auto. now apply child_elements with c.
Qed.

(** X7: what the masker changes. Every element of the masked tree is an
    object of the input with the same name and the same text leaves. If
    [should_mask] did not hold of it, its attributes are untouched; if it
    did, [el-mask] holds what [mask_fn] returned for it, every other
    attribute has the value it had, and no element child is left. *)
Theorem mask_touches_matches_only (should_mask : Tag -> bool)
    (mask_fn : Tag -> string) (t : Tag) :
  forall e', In e' (elements (masked (_mask_elements should_mask (Some mask_fn) t))) ->
    exists e,
      In e (elements t)
      /\ oid e' = oid e /\ name e' = name e /\ hidden e' = hidden e
      /\ text_leaves (contents e') = text_leaves (contents e)
      /\ (should_mask e = false -> attrs e' = attrs e)
      /\ (should_mask e = true ->
            dict_get "el-mask" (attrs e') = Some (AStr (mask_fn e))
            /\ (forall k, k <> "el-mask" ->
                  dict_get k (attrs e') = dict_get k (attrs e))
            /\ tags (contents e') = []).
Proof. apply mask_elements_origin. Qed.

Lemma mask_touches_matches_only_witness :
  let should_mask := is_named "div" in
  let mask_fn := fun _ : Tag => "m" in
  let e' := mkTag 3 "div" [("id", AStr "a"); ("el-mask", AStr "m")] false [] in
  exists e,
    In e (elements (scenario_soup 0 1 2 3 4 5))
    /\ oid e' = oid e /\ name e' = name e /\ hidden e' = hidden e
    /\ text_leaves (contents e') = text_leaves (contents e)
    /\ (should_mask e = false -> attrs e' = attrs e)
    /\ (should_mask e = true ->
          dict_get "el-mask" (attrs e') = Some (AStr (mask_fn e))
          /\ (forall k, k <> "el-mask" ->
                dict_get k (attrs e') = dict_get k (attrs e))
          /\ tags (contents e') = []).
Proof.
  intros should_mask mask_fn e'.
  apply (mask_touches_matches_only should_mask mask_fn (scenario_soup 0 1 2 3 4 5) e').
  vm_compute. auto 10.
Defined.

(** X8: the masker is invoked once on each object that stays in the tree,
    in document order, and on nothing it removes; every node it is invoked
    on is an element of the input. *)
Theorem mask_visits_what_stays (should_mask : Tag -> bool)
    (mask_fn : Tag -> string) (t : Tag) :
  let r := _mask_elements should_mask (Some mask_fn) t in
  map oid (mask_visited r) = map oid (elements (masked r))
  /\ incl (mask_visited r) (elements t).
Proof.
  split; [apply mask_visited_oids|].
  induction t as [o nm at_ hd cs IH] using Tag_induction.
  rewrite Forall_forall in IH.
  destruct (should_mask (mkTag o nm at_ hd cs)) eqn:M.
  - rewrite mask_match by assumption. cbn [mask_visited].
    intros x [<-|[]]. apply elements_self.
  - rewrite mask_descend by assumption. cbn [mask_visited].
    intros x [<-|Hx]; [apply elements_self|].
    apply in_flat_map in Hx. destruct Hx as (c & Hc & Hx).
    apply child_elements with c; auto. now apply IH.
Qed.

(** ** Flattener: the four lists, the error, the parents *)

Lemma all_hovers_length (str_dict : attrs_t -> string) (l : list Tag) :
  forall hs, all_hovers str_dict l = Some hs -> List.length hs = List.length l.
Proof.
  induction l as [|e l IH]; cbn [all_hovers]; intros hs H.
  - now injection H as <-.
  - destruct (add_line_breaks_value (hover_source str_dict e)); [|discriminate].
    destruct (all_hovers str_dict l) as [hs'|]; [|discriminate].
    injection H as <-. simpl. f_equal. now apply IH.
Qed.

(** X9: [traverse] only appends, and it appends the same number of entries
    to each of the four lists of [tree_data], one per element it reaches;
    lists of equal length stay of equal length. *)
Theorem traverse_appends_in_step (str_dict : attrs_t -> string) (element : Tag)
    (parent_id : string) (td td' : tree_data) :
  traverse str_dict element parent_id td = Some td' ->
  exists i l p h,
    ids td' = ids td ++ i /\ labels td' = labels td ++ l
    /\ parents td' = parents td ++ p /\ hover_text td' = hover_text td ++ h
    /\ List.length i = List.length (preorder element)
    /\ List.length l = List.length (preorder element)
    /\ List.length p = List.length (preorder element)
    /\ List.length h = List.length (preorder element).
Proof.
  rewrite traverse_spec. unfold emit.
  destruct (all_hovers str_dict (preorder element)) as [hs|] eqn:E; [|discriminate].
  intros H. injection H as <-. cbn [ids labels parents hover_text].
  do 4 eexists. repeat split.
  - apply length_map.
  - apply length_map.
  - rewrite length_map, <- (length_map fst), records_ids. apply length_map.
  - eapply all_hovers_length; exact E.
Qed.

Lemma traverse_appends_in_step_witness :
  let t := scenario_div 3 4 in
  let td := mkData ["r"] ["root"] [EmptyString] ["{}"] in
  let td' := mkData ["r"; "div_3"; "span_4"] ["root"; "div"; "span"]
                    [EmptyString; "r"; "div_3"] ["{}"; "{}"; "{}"] in
  exists i l p h,
    ids td' = ids td ++ i /\ labels td' = labels td ++ l
    /\ parents td' = parents td ++ p /\ hover_text td' = hover_text td ++ h
    /\ List.length i = List.length (preorder t)
    /\ List.length l = List.length (preorder t)
    /\ List.length p = List.length (preorder t)
    /\ List.length h = List.length (preorder t).
Proof.
  intros t td td'.
  apply (traverse_appends_in_step (fun _ => "{}") t "r" td td').
  reflexivity.
Defined.

Lemma hover_raises (str_dict : attrs_t -> string) (e : Tag) :
  add_line_breaks_value (hover_source str_dict e) = None
  <-> exists vs, dict_get "el-mask" (attrs e) = Some (AList vs).
Proof.
  unfold hover_source, dict_mem.
  destruct (dict_get "el-mask" (attrs e)) as [[text|vs]|];
    cbn [add_line_breaks_value]; split; try discriminate; eauto;
    intros (vs' & H); discriminate.
Qed.

Lemma all_hovers_none (str_dict : attrs_t -> string) (l : list Tag) :
  all_hovers str_dict l = None
  <-> exists e vs, In e l /\ dict_get "el-mask" (attrs e) = Some (AList vs).
Proof.
  induction l as [|e l IH]; cbn [all_hovers].
  - split; [discriminate|intros (e & vs & [] & _)].
  - pose proof (hover_raises str_dict e) as Hhead.
    destruct (add_line_breaks_value (hover_source str_dict e)) as [h|].
    + destruct (all_hovers str_dict l) as [hs|].
      * split; [discriminate|]. intros (e' & vs & [<-|He'] & H).
        -- discriminate (proj2 Hhead (ex_intro _ vs H)).
        -- discriminate (proj2 IH (ex_intro _ e' (ex_intro _ vs (conj He' H)))).
      * split; [intros _|reflexivity].
        destruct (proj1 IH eq_refl) as (e' & vs & He' & H).
        exists e', vs. split; [now right|auto].
    + split; [intros _|reflexivity].
      destruct (proj1 Hhead eq_refl) as (vs & H).
      exists e, vs. split; [now left|auto].
Qed.

(** X10: when the Flattener raises. [_plot_dom_treemap] fails exactly when
    one of the elements it reaches holds a list under [el-mask]
    ([_add_line_breaks] calls [split] on it); otherwise it returns. *)
Theorem flattener_raises_on_list_mask (str_dict : attrs_t -> string) (t : Tag) :
  _plot_dom_treemap str_dict t = None
  <-> exists e vs, In e (preorder t)
                   /\ dict_get "el-mask" (attrs e) = Some (AList vs).
Proof.
  unfold _plot_dom_treemap. rewrite traverse_spec. unfold emit.
  rewrite <- (all_hovers_none str_dict).
  destruct (all_hovers str_dict (preorder t)); split; congruence.
Qed.

Lemma last_cons_default {A : Type} (l : list A) (a d : A) :
  last (a :: l) d = last l a.
Proof.
  revert a d. induction l as [|b l IH]; intros a d; [reflexivity|].
  change (last (a :: b :: l) d) with (last (b :: l) d).
  now rewrite !IH.
Qed.

Lemma shown_named {A : Type} (f : Tag -> list A) (cs : list (PageElement Tag)) :
  (forall c, In c (tags cs) -> name c <> EmptyString) ->
  flat_map (shown f) cs = flat_map f (tags cs).
Proof.
  induction cs as [|[c|k s] cs IH]; cbn [flat_map on_tag tags]; intros H; auto.
  - rewrite IH by (intros c' Hc'; apply H; now right).
    destruct (String.eqb_spec (name c) EmptyString) as [E|_]; auto.
    now destruct (H c (or_introl eq_refl)).
Qed.

(** With every name non-empty, nothing is skipped. *)
Lemma preorder_all (t : Tag) :
  (forall e, In e (elements t) -> name e <> EmptyString) ->
  preorder t = elements t.
Proof.
  induction t as [o nm at_ hd cs IH] using Tag_induction.
  rewrite Forall_forall in IH. intros H.
  cbn [preorder elements]. f_equal.
  rewrite shown_named, flat_map_on_tag.
  - apply flat_map_ext_Forall, Forall_forall. intros c Hc. apply IH; auto.
    intros e He. apply H. now apply child_elements with c.
  - intros c Hc. apply H. apply child_elements with c; auto using elements_self.
Qed.

Lemma records_ancestry (t : Tag) :
  (forall e, In e (elements t) -> name e <> EmptyString) ->
  forall pid,
    records pid t
    = map (fun p => (node_id (snd p), parent_id_of pid (fst p))) (ancestry t).
Proof.
  induction t as [o nm at_ hd cs IH] using Tag_induction.
  rewrite Forall_forall in IH. intros H pid.
  cbn [records ancestry map fst snd]. f_equal.
  set (t := mkTag o nm at_ hd cs) in *.
  rewrite shown_named, flat_map_on_tag, map_map.
  - cbn [fst snd]. rewrite !map_flat_map.
    apply flat_map_ext_Forall, Forall_forall. intros c Hc.
    rewrite IH; auto.
    + apply map_ext. intros [anc e]. cbn [fst snd]. unfold parent_id_of.
      cbn [map]. now rewrite last_cons_default.
    + intros e He. apply H. now apply child_elements with c.
  - intros c Hc. apply H. apply child_elements with c; auto using elements_self.
Qed.

Lemma ancestry_snd (t : Tag) : map snd (ancestry t) = elements t.
Proof.
  induction t as [o nm at_ hd cs IH] using Tag_induction.
  cbn [elements ancestry map snd]. f_equal.
  rewrite map_map. cbn [snd]. rewrite !flat_map_on_tag, map_flat_map.
  apply flat_map_ext_Forall. exact IH.
Qed.

(** X11: the chart reproduces the tree. For a document all of whose
    elements have a name (and whose [el-mask] values are strings), the
    Flattener emits one record per element, in document order, and the
    parent id of a record is the id of the element's parent in the tree,
    the empty string for the root. *)
Theorem flattener_follows_tree (str_dict : attrs_t -> string) (t : Tag) :
  (forall e, In e (elements t) -> name e <> EmptyString) ->
  mask_is_text t ->
  exists td,
    _plot_dom_treemap str_dict t = Some td
    /\ ids td = map (fun p => node_id (snd p)) (ancestry t)
    /\ labels td = map (fun p => name (snd p)) (ancestry t)
    /\ parents td = map (fun p => parent_id_of EmptyString (fst p)) (ancestry t)
    /\ List.length (ids td) = List.length (elements t).
Proof.
  intros Hn M. eexists. split; [apply plot_dom_treemap_total; exact M|].
  cbn [ids labels parents].
  rewrite records_ancestry, preorder_all by assumption.
  rewrite <- (ancestry_snd t), !map_map. cbn [snd].
  repeat split. now rewrite !length_map.
Qed.

Lemma flattener_follows_tree_witness :
  let t := scenario_soup 0 1 2 3 4 5 in
  exists td,
    _plot_dom_treemap (fun _ => "{}") t = Some td
    /\ ids td = map (fun p => node_id (snd p)) (ancestry t)
    /\ labels td = map (fun p => name (snd p)) (ancestry t)
    /\ parents td = map (fun p => parent_id_of EmptyString (fst p)) (ancestry t)
    /\ List.length (ids td) = List.length (elements t).
Proof.
  apply (flattener_follows_tree (fun _ => "{}") (scenario_soup 0 1 2 3 4 5)).
  - intros e He. vm_compute in He.
    repeat (destruct He as [<-|He]; [discriminate|]). destruct He.
  - intros e l He. vm_compute in He.
    repeat (destruct He as [<-|He]; [discriminate|]). destruct He.
Defined.

(** ** Text wrapper: the lines *)

Lemma wrap_step_break (char_limit : Z) (res cur : list string) (cl : Z) (w : string) :
  (cl + len w > char_limit)%Z ->
  wrap_step char_limit (mkWrap res cur cl) w
  = mkWrap (res ++ [marked cur]) [w] (len w).
Proof.
  intros G. unfold wrap_step. cbn [result current_line current_length].
  destruct (Z.gtb_spec (cl + len w) char_limit); [reflexivity|lia].
Qed.

Lemma wrap_step_join (char_limit : Z) (res cur : list string) (cl : Z) (w : string) :
  (cl + len w <= char_limit)%Z ->
  wrap_step char_limit (mkWrap res cur cl) w
  = mkWrap res (cur ++ [w]) (cl + len w + 1)%Z.
Proof.
  intros G. unfold wrap_step. cbn [result current_line current_length].
  destruct (Z.gtb_spec (cl + len w) char_limit); [lia|reflexivity].
Qed.

Lemma len_join_snoc (cur : list string) (w : string) :
  len (String.concat " " (cur ++ [w])) = (packed_length cur + len w)%Z.
Proof.
  rewrite len_join by (destruct cur; discriminate).
  rewrite packed_length_app. simpl. lia.
Qed.

Lemma invariant_break (char_limit : Z) (ls : list (list string))
    (cur : list string) (cl : Z) (w : string) :
  wrap_invariant char_limit ls cur cl ->
  wrap_invariant char_limit (ls ++ [cur]) [w] (len w).
Proof.
  intros I. destruct ls as [|first later]; cbn [app wrap_invariant] in *.
  - destruct I as [_ Hfirst].
    split; [discriminate|]. split; [simpl; lia|]. split; [simpl; lia|].
    split; [exact Hfirst|constructor].
  - destruct I as (Hne & _ & Hcur & Hfirst & Hlater).
    split; [discriminate|]. split; [simpl; lia|]. split; [simpl; lia|].
    split; [exact Hfirst|]. apply Forall_app. split; auto.
Qed.

Lemma invariant_join (char_limit : Z) (ls : list (list string))
    (cur : list string) (cl : Z) (w : string) :
  wrap_invariant char_limit ls cur cl ->
  (cl + len w <= char_limit)%Z ->
  wrap_invariant char_limit ls (cur ++ [w]) (cl + len w + 1)%Z.
Proof.
  intros I G. pose proof (len_join_snoc cur w) as Hjoin.
  destruct ls as [|first later]; cbn [wrap_invariant] in *.
  - destruct I as [-> _]. split.
    + rewrite packed_length_app. simpl. lia.
    + intros _. lia.
  - destruct I as (Hne & -> & Hcur & Hfirst & Hlater).
    split; [destruct cur; discriminate|].
    split; [rewrite packed_length_app; simpl; lia|].
    split; [intros _; lia|]. split; auto.
Qed.

Lemma closed_late_snoc (char_limit : Z) (c n : list string) (L : list (list string)) :
  forall extra,
    closed_late char_limit extra (L ++ [c]) ->
    did_not_fit (char_limit + match L with [] => extra | _ :: _ => 1 end) c n ->
    closed_late char_limit extra ((L ++ [c]) ++ [n]).
Proof.
  induction L as [|l L IH]; intros extra H D.
  - cbn [app closed_late] in *. tauto.
  - cbn [app closed_late] in H |- *. destruct H as [Hhead Hrest]. split.
    + destruct L; exact Hhead.
    + apply IH; auto. destruct L; exact D.
Qed.

Lemma closed_late_grow (char_limit : Z) (c : list string) (w : string)
    (L : list (list string)) :
  forall extra,
    (L <> [] -> c <> []) ->
    closed_late char_limit extra (L ++ [c]) ->
    closed_late char_limit extra (L ++ [c ++ [w]]).
Proof.
  induction L as [|l L IH]; intros extra Hc H.
  - cbn [app closed_late] in *. tauto.
  - cbn [app closed_late] in H |- *. destruct H as [Hhead Hrest]. split.
    + destruct L as [|l' L']; [|exact Hhead].
      cbn [app] in *. destruct c as [|w0 c']; [now destruct Hc|exact Hhead].
    + apply IH; auto. intros _. apply Hc. discriminate.
Qed.

Lemma closed_late_break (char_limit : Z) (ls : list (list string))
    (cur : list string) (cl : Z) (w : string) :
  wrap_invariant char_limit ls cur cl ->
  closed_late char_limit 0 (ls ++ [cur]) ->
  (cl + len w > char_limit)%Z ->
  closed_late char_limit 0 ((ls ++ [cur]) ++ [[w]]).
Proof.
  intros I L G. apply closed_late_snoc; auto.
  unfold did_not_fit. rewrite len_join_snoc.
  destruct ls as [|first later]; cbn [wrap_invariant] in I.
  - destruct I as [-> _]. lia.
  - destruct I as (_ & -> & _). lia.
Qed.

(** The loop, from a state that satisfies the invariant. *)
Lemma wrap_fold_invariant (char_limit : Z) (ws : list string) :
  forall ls cur cl,
    wrap_invariant char_limit ls cur cl ->
    closed_late char_limit 0 (ls ++ [cur]) ->
    exists more,
      let st := fold_left (wrap_step char_limit) ws (mkWrap (map marked ls) cur cl) in
      let ls' := ls ++ more in
      result st = map marked ls'
      /\ List.concat ls' ++ current_line st = List.concat ls ++ cur ++ ws
      /\ wrap_invariant char_limit ls' (current_line st) (current_length st)
      /\ closed_late char_limit 0 (ls' ++ [current_line st]).
Proof.
  induction ws as [|w ws IH]; intros ls cur cl I L.
  - exists []. cbn. rewrite !app_nil_r. auto.
  - cbn [fold_left].
    destruct (Z.gtb_spec (cl + len w) char_limit) as [G|G].
    + rewrite wrap_step_break by lia.
      replace (map marked ls ++ [marked cur]) with (map marked (ls ++ [cur]))
        by now rewrite map_app.
      destruct (IH (ls ++ [cur]) [w] (len w)) as (more & R & C & I' & L').
      * exact (invariant_break char_limit ls cur cl w I).
      * apply (closed_late_break char_limit ls cur cl w); auto. lia.
      * exists (cur :: more). cbn zeta in *.
        replace (ls ++ cur :: more) with ((ls ++ [cur]) ++ more)
          by now rewrite <- app_assoc.
        repeat split; auto.
        rewrite C, concat_app. simpl. now rewrite app_nil_r, <- !app_assoc.
    + rewrite wrap_step_join by lia.
      destruct (IH ls (cur ++ [w]) (cl + len w + 1)%Z) as (more & R & C & I' & L').
      * now apply invariant_join.
      * apply closed_late_grow; auto.
        intros Hls. destruct ls; [congruence|]. cbn [wrap_invariant] in I. tauto.
      * exists more. cbn zeta in *. repeat split; auto.
        rewrite C. now rewrite <- !app_assoc.
Qed.

Lemma wrap_result_lines (text : string) (char_limit : Z) :
  exists ls last,
    split text = List.concat ls ++ last
    /\ wrap_result text char_limit
       = map marked ls ++ match last with
                          | [] => []
                          | _ :: _ => [String.concat " " last]
                          end
    /\ wrap_invariant char_limit ls last
         (current_length (fold_left (wrap_step char_limit) (split text)
                            (mkWrap [] [] 0%Z)))
    /\ closed_late char_limit 0 (ls ++ [last]).
Proof.
  assert (I0 : wrap_invariant char_limit [] [] 0%Z)
    by (split; [reflexivity|congruence]).
  assert (L0 : closed_late char_limit 0 ([] ++ [[]])) by (cbn; auto).
  destruct (wrap_fold_invariant char_limit (split text) [] [] 0%Z I0 L0)
    as (ls & R & C & I & L).
  cbn zeta in *. cbn [map List.concat app] in *.
  set (st := fold_left (wrap_step char_limit) (split text) (mkWrap [] [] 0%Z)) in *.
  exists ls, (current_line st). split; [now rewrite C|]. split; [|split; auto].
  unfold wrap_result. fold st. rewrite R.
  destruct (current_line st); [now rewrite app_nil_r|reflexivity].
Qed.

(** X12: [_add_line_breaks] keeps the words. The words of the text, in
    order and each once, are cut into lines; the output lists the lines,
    each joined by single spaces, and every line but the last is followed
    by the marker. Nothing else is inserted and nothing is dropped. *)
Theorem wrap_keeps_words (text : string) (char_limit : Z) :
  exists ls last,
    split text = List.concat ls ++ last
    /\ wrap_result text char_limit
       = map marked ls ++ match last with
                          | [] => []
                          | _ :: _ => [String.concat " " last]
                          end
    /\ (ls <> [] -> last <> []).
Proof.
  destruct (wrap_result_lines text char_limit) as (ls & last & S & R & I & _).
  exists ls, last. repeat split; auto.
  intros Hls. destruct ls as [|first later]; [congruence|].
  cbn [wrap_invariant] in I. tauto.
Qed.

(** X13: how long a line can get. In the output of [_add_line_breaks] the
    first line, unless it is empty, has at most [char_limit] characters; a
    later line that holds two words or more has at most [char_limit + 1];
    only the first line can be empty. *)
Theorem wrap_line_lengths (text : string) (char_limit : Z) :
  exists ls last,
    split text = List.concat ls ++ last
    /\ wrap_result text char_limit
       = map marked ls ++ match last with
                          | [] => []
                          | _ :: _ => [String.concat " " last]
                          end
    /\ match ls ++ [last] with
       | [] => True
       | first :: later =>
           (first <> [] -> (len (String.concat " " first) <= char_limit)%Z)
           /\ Forall (fun l => l <> []
                               /\ (2 <= List.length l ->
                                   (len (String.concat " " l) <= char_limit + 1)%Z))
                     later
       end.
Proof.
  destruct (wrap_result_lines text char_limit) as (ls & last & S & R & I & _).
  exists ls, last. split; auto. split; auto.
  destruct ls as [|first later]; cbn [app wrap_invariant] in *.
  - split; [tauto|constructor].
  - destruct I as (Hne & _ & Hcur & Hfirst & Hlater). split; auto.
    apply Forall_app. split; auto.
Qed.

(** X19: no line is closed early. In the output of [_add_line_breaks] a
    line ends only where the first word of the next line did not fit: with
    that word the first line would have more than [char_limit] characters,
    a later line more than [char_limit + 1]. With the bounds on the lines
    this makes the packing greedy, for a limit that is one larger from the
    second line on. *)
Theorem wrap_breaks_only_when_full (text : string) (char_limit : Z) :
  exists ls last,
    split text = List.concat ls ++ last
    /\ wrap_result text char_limit
       = map marked ls ++ match last with
                          | [] => []
                          | _ :: _ => [String.concat " " last]
                          end
    /\ closed_late char_limit 0 (ls ++ [last]).
Proof.
  destruct (wrap_result_lines text char_limit) as (ls & last & S & R & _ & L).
  exists ls, last. auto.
Qed.

Lemma split_from_nil (text : string) :
  forall word, split_from word text = [] <-> word = EmptyString /\ all_space text = true.
Proof.
  induction text as [|c text IH]; intros word; simpl.
  - destruct word; split; try tauto; try discriminate. intros [H _]. discriminate.
  - destruct (isspace c) eqn:Hc; simpl.
    + destruct word.
      * rewrite IH. tauto.
      * split; [discriminate|]. intros [H _]. discriminate.
    + rewrite IH. split; intros [H1 H2]; [|discriminate].
      destruct word; discriminate.
Qed.

Lemma join_nonempty (w : string) (ws : list string) :
  w <> EmptyString -> String.concat " " (w :: ws) <> EmptyString.
Proof. destruct w; [congruence|]. destruct ws; discriminate. Qed.

Lemma join_last_nonempty (xs : list string) (y : string) :
  y <> EmptyString -> String.concat " " (xs ++ [y]) <> EmptyString.
Proof.
  intros Hy. destruct xs as [|x xs]; [exact Hy|].
  cbn [app String.concat]. destruct (xs ++ [y]) eqn:E.
  - destruct xs; discriminate.
  - destruct x; discriminate.
Qed.

(** X14: the output of [_add_line_breaks] is empty exactly when the text
    holds no word, that is when it is empty or all whitespace. *)
Theorem wrap_empty_iff_blank (text : string) (char_limit : Z) :
  _add_line_breaks text char_limit = EmptyString <-> all_space text = true.
Proof.
  destruct (wrap_result_lines text char_limit) as (ls & last & S & R & I & _).
  unfold _add_line_breaks. rewrite R. split.
  - intros E. destruct last as [|w last'].
    + destruct ls as [|first later]; [|cbn [wrap_invariant] in I; tauto].
      simpl in S. apply (split_from_nil text EmptyString) in S. tauto.
    + exfalso. revert E. apply join_last_nonempty, join_nonempty.
      pose proof (split_words text) as W. rewrite S in W.
      apply Forall_app in W. destruct W as [_ W].
      inversion W as [|? ? [Hw _] _]; subst. exact Hw.
  - intros B.
    assert (E : split text = []) by (apply split_from_nil; auto).
    rewrite E in S. symmetry in S. apply app_eq_nil in S. destruct S as [S ->].
    destruct ls as [|first later]; [reflexivity|].
    cbn [wrap_invariant] in I. tauto.
Qed.

(** X15: a first word longer than the limit. When the first word of the
    text has more than [char_limit] characters, the output starts with the
    marker alone: the loop closes the still empty first line before it
    places the word. *)
Theorem wrap_long_first_word (text : string) (char_limit : Z) (w : string)
    (ws : list string) :
  split text = w :: ws ->
  (len w > char_limit)%Z ->
  exists rest,
    rest <> []
    /\ wrap_result text char_limit = "<br />" :: rest
    /\ _add_line_breaks text char_limit
       = ("<br /> " ++ String.concat " " rest)%string.
Proof.
  intros S G.
  assert (I1 : wrap_invariant char_limit [[]] [w] (len w)).
  { cbn [wrap_invariant]. split; [discriminate|]. split; [simpl; lia|].
    split; [simpl; lia|]. split; [congruence|constructor]. }
  assert (L1 : closed_late char_limit 0 ([[]] ++ [[w]])).
  { cbn [app closed_late did_not_fit]. repeat split; auto. simpl. lia. }
  destruct (wrap_fold_invariant char_limit ws [[]] [w] (len w) I1 L1)
    as (more & R & C & I & _).
  cbn zeta in *.
  assert (F : fold_left (wrap_step char_limit) (split text) (mkWrap [] [] 0%Z)
              = fold_left (wrap_step char_limit) ws
                  (mkWrap (map marked [[]]) [w] (len w))).
  { rewrite S. cbn [fold_left]. unfold wrap_step at 2.
    cbn [current_length current_line result].
    destruct (Z.gtb_spec (0 + len w) char_limit) as [_|L]; [reflexivity|lia]. }
  set (st := fold_left (wrap_step char_limit) ws
               (mkWrap (map marked [[]]) [w] (len w))) in *.
  cbn [app wrap_invariant] in I. destruct I as (Hne & _).
  assert (Rw : wrap_result text char_limit
               = "<br />" :: (map marked more
                              ++ [String.concat " " (current_line st)])).
  { unfold wrap_result. rewrite F. fold st. rewrite R.
    destruct (current_line st); [congruence|reflexivity]. }
  exists (map marked more ++ [String.concat " " (current_line st)]).
  split; [destruct (map marked more); discriminate|]. split; [exact Rw|].
  unfold _add_line_breaks. rewrite Rw. cbn [String.concat].
  destruct (map marked more ++ [String.concat " " (current_line st)]) eqn:E;
    [destruct (map marked more); discriminate|reflexivity].
Qed.

Lemma wrap_long_first_word_witness :
  exists rest,
    rest <> []
    /\ wrap_result "abcd e" 3 = "<br />" :: rest
    /\ _add_line_breaks "abcd e" 3 = ("<br /> " ++ String.concat " " rest)%string.
Proof.
  apply (wrap_long_first_word "abcd e" 3 "abcd" ["e"]).
  - reflexivity.
  - reflexivity.
Defined.

(** ** The default mask text and the pipeline *)

Lemma default_mask_nonempty (str_list : list string -> string) (node : Tag) :
  hidden node = false -> default_mask_fn str_list node <> EmptyString.
Proof.
  intros H. unfold default_mask_fn.
  destruct (String.eqb (name node) "a"); [discriminate|].
  destruct node as [o nm at_ hd cs]. cbn [hidden] in H. subst hd.
  cbn [decode].
  destruct ((List.length cs =? 0)%nat && can_be_empty_element nm); discriminate.
Qed.

(** X16: annotations of the default mask text. When the masker runs with
    [default_mask_fn] on a tree that carries no [el-mask] attribute
    beforehand, every annotation it leaves on an element other than the
    hidden root object is a non-empty string: [href: ...] for an [a], the
    markup, which starts with the opening bracket, for any other tag. *)
Theorem default_annotations_nonempty (str_list : list string -> string)
    (should_mask : Tag -> bool) (t e' : Tag) (v : attr_value) :
  (forall e, In e (elements t) -> dict_get "el-mask" (attrs e) = None) ->
  In e' (elements (masked (_mask_elements should_mask
                             (Some (default_mask_fn str_list)) t))) ->
  hidden e' = false ->
  dict_get "el-mask" (attrs e') = Some v ->
  exists s, v = AStr s /\ s <> EmptyString.
Proof.
  intros Hno He' Hh Hv.
  destruct (mask_elements_origin should_mask (default_mask_fn str_list) t e' He')
    as (e & He & _ & _ & Hhid & _ & Hfalse & Htrue).
  destruct (should_mask e) eqn:M.
  - destruct (Htrue eq_refl) as (Hm & _). rewrite Hm in Hv. injection Hv as <-.
    eexists. split; [reflexivity|]. apply default_mask_nonempty. congruence.
  - rewrite (Hfalse eq_refl), (Hno e He) in Hv. discriminate.
Qed.

Lemma default_annotations_nonempty_witness :
  exists s, AStr scenario_markup = AStr s /\ s <> EmptyString.
Proof.
  apply (default_annotations_nonempty (fun _ => "[]") (is_named "div")
           (scenario_soup 0 1 2 3 4 5)
           (mkTag 3 "div" [("id", AStr "a"); ("el-mask", AStr scenario_markup)]
                  false [])
           (AStr scenario_markup)).
  - intros e He. vm_compute in He.
    repeat (destruct He as [<-|He]; [reflexivity|]). destruct He.
  - vm_compute. auto 10.
  - reflexivity.
  - reflexivity.
Defined.

Lemma plot_dom_treemap_some (str_dict : attrs_t -> string) (t : Tag) (td : tree_data) :
  _plot_dom_treemap str_dict t = Some td ->
  ids td = map node_id (preorder t) /\ labels td = map name (preorder t).
Proof.
  unfold _plot_dom_treemap. rewrite traverse_spec. unfold emit.
  destruct (all_hovers str_dict (preorder t)); [|discriminate].
  intros H. injection H as <-. auto.
Qed.

Lemma node_id_same (x y : Tag) : oid x = oid y -> name x = name y -> node_id x = node_id y.
Proof. unfold node_id. now intros -> ->. Qed.

(** X17: the chart shows elements of the document only. Whatever filter,
    mask predicate and mask text are passed, every record
    [html_dom_visualize] hands to the chart is the record of an element of
    the parsed document: its id is that element's id and its label that
    element's name. *)
Theorem pipeline_records_from_input (str_dict : attrs_t -> string)
    (str_list : list string -> string) (soup : Tag)
    (branch_filter should_mask : option (Tag -> bool))
    (mask_fn : option (Tag -> string)) (td : tree_data) :
  html_dom_visualize str_dict str_list soup branch_filter should_mask mask_fn
  = Some td ->
  forall i id, nth_error (ids td) i = Some id ->
    exists e, In e (elements soup) /\ id = node_id e
              /\ nth_error (labels td) i = Some (name e).
Proof.
  unfold html_dom_visualize.
  set (soup1 := match branch_filter with
                | Some _ => tree (_filter_branches branch_filter soup)
                | None => soup
                end).
  set (soup2 := match should_mask with Some _ => _ | None => soup1 end).
  assert (H1 : forall e1, In e1 (elements soup1) ->
             exists e, In e (elements soup) /\ oid e1 = oid e /\ name e1 = name e).
  { intros e1 He1. destruct branch_filter as [keep|]; [|exists e1; auto].
    destruct (filter_elements_origin keep soup e1 He1) as (e & He & (Ho & Hn & _) & _).
    exists e. auto. }
  assert (H2 : forall e2, In e2 (elements soup2) ->
             exists e, In e (elements soup) /\ oid e2 = oid e /\ name e2 = name e).
  { intros e2 He2. destruct should_mask as [sm|]; [|now apply H1].
    destruct (mask_elements_origin sm _ soup1 e2 He2) as (e1 & He1 & Ho & Hn & _).
    destruct (H1 e1 He1) as (e & He & Ho' & Hn').
    exists e. repeat split; auto; congruence. }
  intros P i id Hi. apply plot_dom_treemap_some in P. destruct P as [Pi Pl].
  rewrite Pi, nth_error_map in Hi. rewrite Pl, nth_error_map.
  destruct (nth_error (preorder soup2) i) as [e2|] eqn:E; [|discriminate].
  injection Hi as <-.
  destruct (H2 e2) as (e & He & Ho & Hn).
  { apply preorder_incl. eapply nth_error_In; eauto. }
  exists e. split; auto. split; [now apply node_id_same|].
  cbn [option_map]. now rewrite Hn.
Qed.

Lemma pipeline_records_from_input_witness :
  exists e, In e (elements (scenario_soup 0 1 2 3 4 5)) /\ "div_3" = node_id e
            /\ nth_error ["[document]"; "html"; "body"; "div"] 3 = Some (name e).
Proof.
  apply (pipeline_records_from_input (fun _ => "{}") (fun _ => "[]")
           (scenario_soup 0 1 2 3 4 5)
           (Some (is_named "span")) (Some (is_named "div")) None
           (mkData ["[document]_0"; "html_1"; "body_2"; "div_3"]
                   ["[document]"; "html"; "body"; "div"]
                   [EmptyString; "[document]_0"; "html_1"; "body_2"]
                   ["{}"; "{}"; "{}"; scenario_markup])
           eq_refl 3 "div_3").
  reflexivity.
Defined.

Lemma name_in_false (tag_names : list string) (e : Tag) :
  ~ In (name e) tag_names -> name_in tag_names e = false.
Proof.
  intros H. unfold name_in.
  destruct (existsb (String.eqb (name e)) tag_names) eqn:E; auto.
  apply existsb_exists in E. destruct E as (n & Hn & E).
  apply String.eqb_eq in E. now subst n.
Qed.

Lemma plot_leaf (str_dict : attrs_t -> string) (t : Tag) :
  tags (contents t) = [] ->
  (forall vs, dict_get "el-mask" (attrs t) <> Some (AList vs)) ->
  _plot_dom_treemap str_dict t
  = Some (mkData [node_id t] [name t] [EmptyString] [hover_of str_dict t]).
Proof.
  intros D M.
  assert (P : preorder t = [t]).
  { destruct t as [o nm at_ hd cs]. cbn [preorder contents] in *.
    now rewrite flat_map_on_tag, D. }
  assert (R : records EmptyString t = [(node_id t, EmptyString)]).
  { destruct t as [o nm at_ hd cs]. cbn [records contents] in *.
    now rewrite flat_map_on_tag, D. }
  unfold _plot_dom_treemap. rewrite traverse_spec. unfold emit.
  rewrite P, R, all_hovers_total; [reflexivity|].
  intros e vs [<-|[]]. apply M.
Qed.

(** X18: a branch option that names no tag of the document. When [main] is
    run with [-b] tags none of which occurs in the document, and without
    [-m], the chart holds the root object alone: everything below it was
    pruned. *)
Theorem main_branch_without_match (str_dict : attrs_t -> string)
    (str_list : list string -> string) (soup : Tag) (n : string) (l : list string) :
  (forall e, In e (elements soup) -> ~ In (name e) (n :: l)) ->
  (forall vs, dict_get "el-mask" (attrs soup) <> Some (AList vs)) ->
  main str_dict str_list soup (Some (n :: l)) None
  = Some (mkData [node_id soup] [name soup] [EmptyString]
                 [hover_of str_dict soup]).
Proof.
  intros Hnone Hmask.
  unfold main, html_dom_visualize. cbn [cli_predicate].
  set (keep := name_in (n :: l)).
  assert (K : kept (_filter_branches (Some keep) soup) = false).
  { apply filter_no_match. intros e He. apply name_in_false. now apply Hnone. }
  pose proof (filter_dropped keep soup K) as D.
  destruct (filter_root_head keep soup) as ((Ho & Hn & Ha) & _).
  set (soup1 := tree (_filter_branches (Some keep) soup)) in *.
  rewrite plot_leaf; auto.
  - unfold hover_of. rewrite <- Ha, <- Hn.
    now rewrite (node_id_same soup soup1).
  - now rewrite <- Ha.
Qed.

Lemma main_branch_without_match_witness :
  main (fun _ => "{}") (fun _ => "[]") (scenario_soup 0 1 2 3 4 5)
    (Some ["table"; "tr"]) None
  = Some (mkData [node_id (scenario_soup 0 1 2 3 4 5)]
                 [name (scenario_soup 0 1 2 3 4 5)] [EmptyString]
                 [hover_of (fun _ => "{}") (scenario_soup 0 1 2 3 4 5)]).
Proof.
  apply (main_branch_without_match (fun _ => "{}") (fun _ => "[]")
           (scenario_soup 0 1 2 3 4 5) "table" ["tr"]).
  - intros e He. vm_compute in He.
    repeat (destruct He as [<-|He];
            [simpl; intuition discriminate|]). destruct He.
  - intros vs. discriminate.
Defined.
